(** * vim-notion: the modal navigation engine of [src/content_scripts/vim.ts]

    A shallow embedding of the content script: the DOM fragment it touches
    (content trees, the selection, [document.activeElement], keydown
    subscriptions, the mode indicator), the global [window.vim_info] record
    and every function of the engine, followed by the properties of the
    cursor position model, the line registry, the mode state machine and the
    motions. *)

From Stdlib Require Import String Ascii List ZArith Lia Bool.
Import ListNotations.
Open Scope string_scope.
Open Scope Z_scope.

Set Warnings "-register-all".

(** ** Strings (JS strings, restricted to one-byte code units) *)

Module Js.

(** [s.length] *)
Definition length (s : string) : Z := Z.of_nat (String.length s).

Fixpoint drop (n : nat) (s : string) : string :=
  match n, s with
  | O, _ => s
  | S _, EmptyString => EmptyString
  | S n', String _ s' => drop n' s'
  end.

(** [s.slice(start)]: a negative [start] counts from the end of [s]. *)
Definition slice (s : string) (start : Z) : string :=
  let len := length s in
  let from := if start <? 0 then Z.max (len + start) 0 else Z.min start len in
  drop (Z.to_nat from) s.

(** [s[0]], [undefined] on the empty string. *)
Definition first (s : string) : option string :=
  match s with
  | EmptyString => None
  | String c _ => Some (String c EmptyString)
  end.

(** The code unit at index [k], when there is one. *)
Definition charAt (s : string) (k : Z) : option ascii :=
  if k <? 0 then None else String.get (Z.to_nat k) s.

(** [String(v)] of a possibly undefined string, as a regular expression's
    [test] coerces its argument. *)
Definition coerce (v : option string) : string :=
  match v with
  | Some s => s
  | None => "undefined"
  end.

Definition upper (c : ascii) : ascii :=
  let n := nat_of_ascii c in
  if (Nat.leb 97 n && Nat.leb n 122)%bool then ascii_of_nat (n - 32) else c.

(** [s.toUpperCase()] *)
Fixpoint toUpperCase (s : string) : string :=
  match s with
  | EmptyString => EmptyString
  | String c s' => String (upper c) (toUpperCase s')
  end.

End Js.

(** ** Regular expressions that are one character class

    Modelled from the spec: [whitespace], imported from [../constants], is
    the shared whitespace-character-class test, applied character by
    character with the first match winning.  Such an expression is given by
    the class it accepts. *)

Module RegExp.
Section CharClass.
Variable cls : ascii -> bool.

(** [s.search(re)]: index of the first match, [-1] without one. *)
Fixpoint search_from (s : string) (k : Z) : Z :=
  match s with
  | EmptyString => -1
  | String c s' => if cls c then k else search_from s' (k + 1)
  end.

Definition search (s : string) : Z := search_from s 0.

Fixpoint matches (s : string) : bool :=
  match s with
  | EmptyString => false
  | String c s' => cls c || matches s'
  end.

(** [re.test(v)] *)
Definition test (v : option string) : bool := matches (Js.coerce v).
End CharClass.

(** The class [\s] on one-byte code units. *)
Definition space_class (c : ascii) : bool :=
  let n := nat_of_ascii c in
  (Nat.leb 9 n && Nat.leb n 13 || Nat.eqb n 32 || Nat.eqb n 160)%bool.
End RegExp.

(** ** The DOM fragment *)

(** A content tree of text and element nodes. *)
Inductive Node : Type :=
| Text (data : string)
| Element (childNodes : list Node).

(** [node.textContent] *)
Fixpoint textContent (n : Node) : string :=
  match n with
  | Text data => data
  | Element cs => String.concat "" (map textContent cs)
  end.

Definition textLength (n : Node) : Z := Js.length (textContent n).

(** An editable surface: an element of the host document with its identity
    and its content tree. *)
Record HTMLElement : Type := mkElement {
  uid : nat;
  childNodes : list Node
}.

Definition asNode (el : HTMLElement) : Node := Element (childNodes el).

(** [el.textContent]; [el.innerText] is read as the same string (the
    rendered text of a surface whose content is all visible and inline). *)
Definition elementText (el : HTMLElement) : string := textContent (asNode el).
Definition innerText (el : HTMLElement) : string := elementText el.

(** The identity of a node: the surface it lives in and the child indices
    leading to it ([isSameNode] is equality of references). *)
Record NodeRef : Type := mkRef {
  owner : nat;
  path : list nat
}.

Definition rootRef (el : HTMLElement) : NodeRef := mkRef (uid el) [].
Definition childRef (r : NodeRef) (k : nat) : NodeRef :=
  mkRef (owner r) (path r ++ [k]).

Definition list_nat_eqb : list nat -> list nat -> bool :=
  fix go (a b : list nat) : bool :=
    match a, b with
    | [], [] => true
    | x :: a', y :: b' => Nat.eqb x y && go a' b'
    | _, _ => false
    end.

Definition isSameNode (a b : NodeRef) : bool :=
  Nat.eqb (owner a) (owner b) && list_nat_eqb (path a) (path b).

(** The first range of the selection (always collapsed here). *)
Record Range : Type := mkRange {
  startContainer : NodeRef;
  startOffset : Z
}.

(** ** The engine's state *)

Inductive Mode : Type := normal | insert.

Definition Mode_to_string (m : Mode) : string :=
  match m with
  | normal => "normal"
  | insert => "insert"
  end.

Record TrackedLine : Type := mkLine {
  line_cursor_position : Z;
  element : HTMLElement
}.

(** [window.vim_info] *)
Record VimInfo : Type := mkVimInfo {
  active_line : Z;
  cursor_position : Z;
  lines : list TrackedLine;
  mode : Mode
}.

Record KeyboardEvent : Type := mkEvent {
  key : string;
  defaultPrevented : bool;
  propagationStopped : bool
}.

(** Everything the script reads or writes. *)
Record World : Type := mkWorld {
  vim_info : VimInfo;
  activeElement : option HTMLElement;   (* document.activeElement, maybe null *)
  selection : option Range;             (* None: no selection or rangeCount = 0 *)
  keydown : list nat;                   (* surfaces subscribed to handleKeydown *)
  clicked : list nat;                   (* synthetic clicks, latest first *)
  vim_mode : option string;             (* innerText of .vim-mode, if present *)
  event : KeyboardEvent                 (* the event being dispatched *)
}.

Definition set_vim_info (v : VimInfo) (w : World) : World :=
  mkWorld v (activeElement w) (selection w) (keydown w) (clicked w)
          (vim_mode w) (event w).
Definition set_selection (r : option Range) (w : World) : World :=
  mkWorld (vim_info w) (activeElement w) r (keydown w) (clicked w)
          (vim_mode w) (event w).
Definition set_keydown (l : list nat) (w : World) : World :=
  mkWorld (vim_info w) (activeElement w) (selection w) l (clicked w)
          (vim_mode w) (event w).
Definition set_clicked (l : list nat) (w : World) : World :=
  mkWorld (vim_info w) (activeElement w) (selection w) (keydown w) l
          (vim_mode w) (event w).
Definition set_vim_mode (t : option string) (w : World) : World :=
  mkWorld (vim_info w) (activeElement w) (selection w) (keydown w) (clicked w)
          t (event w).
Definition set_event (e : KeyboardEvent) (w : World) : World :=
  mkWorld (vim_info w) (activeElement w) (selection w) (keydown w) (clicked w)
          (vim_mode w) e.

(* The host moves the keyboard focus. *)
Definition set_activeElement (el : option HTMLElement) (w : World) : World :=
  mkWorld (vim_info w) el (selection w) (keydown w) (clicked w)
          (vim_mode w) (event w).

Definition set_active_line (i : Z) (v : VimInfo) : VimInfo :=
  mkVimInfo i (cursor_position v) (lines v) (mode v).
Definition set_lines (l : list TrackedLine) (v : VimInfo) : VimInfo :=
  mkVimInfo (active_line v) (cursor_position v) l (mode v).
Definition set_mode (m : Mode) (v : VimInfo) : VimInfo :=
  mkVimInfo (active_line v) (cursor_position v) (lines v) m.

(** ** Computations: state passing with JS exceptions

    A call either returns a value and the world it leaves, or throws (the
    only exception the engine can raise is the [TypeError] of reading a
    property of [null]) in the world reached so far. *)

Inductive Result (A : Type) : Type :=
| Ok (a : A) (w : World)
| TypeError (w : World).
Arguments Ok {A} a w.
Arguments TypeError {A} w.

Definition M (A : Type) : Type := World -> Result A.

Definition ret {A} (a : A) : M A := fun w => Ok a w.
Definition bind {A B} (m : M A) (k : A -> M B) : M B :=
  fun w => match m w with
           | Ok a w' => k a w'
           | TypeError w' => TypeError w'
           end.
Definition throw {A} : M A := fun w => TypeError w.
Definition gets {A} (f : World -> A) : M A := fun w => Ok (f w) w.
Definition modify (f : World -> World) : M unit := fun w => Ok tt (f w).

Notation "x <- m ;; k" := (bind m (fun x => k))
  (at level 61, m at next level, right associativity).
Notation "m ;; k" := (bind m (fun _ => k))
  (at level 61, right associativity).

(** The world a call leaves, returned or thrown. *)
Definition final {A} (r : Result A) : World :=
  match r with
  | Ok _ w => w
  | TypeError w => w
  end.

Definition returns {A} (r : Result A) : Prop :=
  match r with
  | Ok _ _ => True
  | TypeError _ => False
  end.

(** [arr[i]] for a number [i]: [undefined] out of range. *)
Definition at_index {A} (l : list A) (i : Z) : option A :=
  if i <? 0 then None else nth_error l (Z.to_nat i).

(** ** The engine *)

Definition getActiveLine : M Z := gets (fun w => active_line (vim_info w)).
Definition getLines : M (list TrackedLine) := gets (fun w => lines (vim_info w)).

(** *** Cursor position model *)

Section CheckElementNode.
Variable range : Range.

(* The loop of checkElementNode over the child nodes from index [k] on;
   [i] is the captured counter, returned with the loop's result. *)
Section Loop.
Variable rec : NodeRef -> Node -> Z -> bool * Z.

Fixpoint checkChildNodes (self : NodeRef) (k : nat) (nodes : list Node)
         (i : Z) : bool * Z :=
  match nodes with
  | [] => (false, i)
  | node :: rest =>
      match node with
      | Element _ =>
          let '(found, i') := rec (childRef self k) node i in
          if found then (false, i')                 (* break; return false *)
          else checkChildNodes self (S k) rest i'   (* continue *)
      | Text data =>
          if isSameNode (childRef self k) (startContainer range)
          then (true, i + startOffset range)
          else checkChildNodes self (S k) rest (i + Js.length data)
      end
  end.
End Loop.

Fixpoint checkElementNode (self : NodeRef) (element : Node) (i : Z)
  : bool * Z :=
  match element with
  | Element cs => checkChildNodes checkElementNode self 0 cs i
  | Text _ => (false, i)
  end.
End CheckElementNode.

Definition getCursorIndex : M Z :=
  sel <- gets selection ;;
  match sel with
  | None => ret 0
  | Some range =>
      active <- gets activeElement ;;
      match active with
      | None => throw
      | Some el => ret (snd (checkElementNode range (rootRef el) (asNode el) 0))
      end
  end.

Definition getModeText (m : Mode) : string :=
  "-- " ++ Js.toUpperCase (Mode_to_string m) ++ " --".

(* range.setStart(node, offset); range.collapse(true);
   selection.removeAllRanges(); selection.addRange(range) *)
Definition placeCaret (node : NodeRef) (offset : Z) : M unit :=
  modify (set_selection (Some (mkRange node offset))).

Section SetCursorLoop.
Variable rec : NodeRef -> Node -> Z -> M unit.

Fixpoint setCursorChildNodes (self : NodeRef) (k : nat) (nodes : list Node)
         (i index : Z) : M unit :=
  match nodes with
  | [] => ret tt
  | node :: rest =>
      let isInRange :=
        (i <=? index) && (index <=? i + textLength node) in
      match node with
      | Element _ =>
          if isInRange then rec (childRef self k) node (index - i)
          else setCursorChildNodes self (S k) rest (i + textLength node) index
      | Text _ =>
          if isInRange then placeCaret (childRef self k) (index - i)
          else setCursorChildNodes self (S k) rest (i + textLength node) index
      end
  end.
End SetCursorLoop.

Fixpoint setCursorNode (self : NodeRef) (element : Node) (index : Z) : M unit :=
  match element with
  | Element cs => setCursorChildNodes setCursorNode self 0 cs 0 index
  | Text _ => ret tt
  end.

(** [setCursorPosition(element, index)]; callers hand it
    [document.activeElement], which may be null. *)
Definition setCursorPosition (element : option HTMLElement) (index : Z)
  : M unit :=
  match element with
  | None => throw
  | Some el => setCursorNode (rootRef el) (asNode el) index
  end.

(** *** Line registry *)

Definition unsubscribe (u : nat) (subscribers : list nat) : list nat :=
  filter (fun v => negb (Nat.eqb v u)) subscribers.

(* Adding a listener that is already registered changes nothing. *)
Definition subscribe (u : nat) (subscribers : list nat) : list nat :=
  if existsb (Nat.eqb u) subscribers then subscribers else subscribers ++ [u].

Definition removeEventListener (el : HTMLElement) : M unit :=
  modify (fun w => set_keydown (unsubscribe (uid el) (keydown w)) w).

Definition addEventListener (el : HTMLElement) : M unit :=
  modify (fun w => set_keydown (subscribe (uid el) (keydown w)) w).

(* [el.click()]: the synthetic click is dispatched to the host. *)
Definition click (el : HTMLElement) : M unit :=
  modify (fun w => set_clicked (uid el :: clicked w) w).

Definition clampIndex (len idx : Z) : Z :=
  let i := if len <=? idx then len - 1 else idx in
  if i <? 0 then 0 else i.

Definition setActiveLine (idx : Z) : M unit :=
  lines <- gets (fun w => lines (vim_info w)) ;;
  active_line <- getActiveLine ;;
  let i := clampIndex (Z.of_nat (List.length lines)) idx in
  match at_index lines active_line with
  | Some l => removeEventListener (element l)
  | None => ret tt
  end ;;
  match at_index lines i with
  | Some l =>
      click (element l) ;;
      addEventListener (element l) ;;
      modify (fun w => set_vim_info (set_active_line i (vim_info w)) w)
  | None => ret tt
  end.

Definition setLines (f : list HTMLElement) : M unit :=
  modify (fun w =>
    set_vim_info (set_lines (map (fun elem => mkLine 0 elem) f) (vim_info w)) w) ;;
  a <- gets (fun w => active_line (vim_info w)) ;;
  setActiveLine (if a =? 0 then 0 else a).

(** *** Mode indicator *)

Definition updateInfoContainer : M unit :=
  modify (fun w =>
    match vim_mode w with
    | Some _ => set_vim_mode (Some (getModeText (mode (vim_info w)))) w
    | None => w
    end).

Definition createInfoContainer : M unit :=
  modify (fun w => set_vim_mode (Some (getModeText (mode (vim_info w)))) w).

Definition initVimInfo : M unit :=
  modify (set_vim_info (mkVimInfo 0 0 [] normal)).

(** *** Motions *)

Definition moveCursorBackwards : M unit :=
  currentCursorPosition <- getCursorIndex ;;
  if currentCursorPosition =? 0 then ret tt
  else
    active <- gets activeElement ;;
    setCursorPosition active (currentCursorPosition - 1).

Definition moveCursorForwards : M unit :=
  currentCursorPosition <- getCursorIndex ;;
  active <- gets activeElement ;;
  match active with
  | None => throw
  | Some el =>
      if Js.length (elementText el) <=? currentCursorPosition then ret tt
      else setCursorPosition active (currentCursorPosition + 1)
  end.

Section Whitespace.
(** The class of the imported [whitespace] expression. *)
Variable whitespace : ascii -> bool.

(* One activation of jumpToNextWORD; [self] stands for the recursive call. *)
Definition jumpToNextWORD_body
           (self : option HTMLElement -> option Z -> M unit)
           (node : option HTMLElement) (start_position : option Z) : M unit :=
  active_line <- getActiveLine ;;
  lines <- getLines ;;
  currentCursorPosition <-
    match start_position with
    | Some p => ret p
    | None => getCursorIndex
    end ;;
  currentNode <-
    match node with
    | Some n => ret (Some n)
    | None => gets activeElement
    end ;;
  match currentNode with
  | None => throw
  | Some cur =>
      let currentLineTextContent := innerText cur in
      let currentRemainingText :=
        Js.slice currentLineTextContent currentCursorPosition in
      let nextWhiteSpaceAfterCursor :=
        RegExp.search whitespace currentRemainingText in
      let nextWhiteSpaceIndex :=
        if 0 <=? nextWhiteSpaceAfterCursor
        then currentCursorPosition + nextWhiteSpaceAfterCursor
        else Js.length currentLineTextContent in
      if nextWhiteSpaceIndex <? Js.length currentLineTextContent then
        setCursorPosition currentNode (nextWhiteSpaceIndex + 1)
      else
        match node, at_index lines (active_line + 1) with
        | None, Some next =>
            let new_elem := element next in
            setActiveLine (active_line + 1) ;;
            if RegExp.test whitespace (Js.first (innerText new_elem))
            then self (Some (element next)) (Some 0)
            else setCursorPosition (Some new_elem) 0
        | _, _ => setCursorPosition currentNode nextWhiteSpaceIndex
        end
  end.

(** The recursive call passes a node, and an activation with a node never
    calls again: two activations are the whole function (see
    [jumpToNextWORD_unfold]). *)
Definition jumpToNextWORD : option HTMLElement -> option Z -> M unit :=
  jumpToNextWORD_body (jumpToNextWORD_body (fun _ _ => throw)).

(** *** Key handling *)

Definition preventDefault : M unit :=
  modify (fun w =>
    set_event (mkEvent (key (event w)) true (propagationStopped (event w))) w).

Definition stopPropagation : M unit :=
  modify (fun w =>
    set_event (mkEvent (key (event w)) (defaultPrevented (event w)) true) w).

Definition setMode (m : Mode) : M unit :=
  modify (fun w => set_vim_info (set_mode m (vim_info w)) w).

Definition insertReducer : M unit :=
  e <- gets event ;;
  if String.eqb (key e) "Escape" then
    preventDefault ;;
    stopPropagation ;;
    setMode normal ;;
    updateInfoContainer
  else ret tt.

Definition normalReducer : M unit :=
  active_line <- gets (fun w => active_line (vim_info w)) ;;
  e <- gets event ;;
  let k := key e in
  if (String.eqb k "a" || String.eqb k "i")%bool then
    preventDefault ;; setMode insert ;; updateInfoContainer
  else if String.eqb k "h" then
    preventDefault ;; moveCursorBackwards
  else if String.eqb k "j" then
    preventDefault ;; setActiveLine (active_line + 1)
  else if String.eqb k "k" then
    preventDefault ;; setActiveLine (active_line - 1)
  else if String.eqb k "l" then
    preventDefault ;; moveCursorForwards
  else if String.eqb k "W" then
    preventDefault ;; jumpToNextWORD None None
  else
    preventDefault.

Definition handleKeydown : M unit :=
  m <- gets (fun w => mode (vim_info w)) ;;
  match m with
  | normal => normalReducer
  | insert => insertReducer
  end.

(** A keydown event with key [k] delivered to the handler. *)
Definition dispatchKeydown (k : string) : M unit :=
  modify (set_event (mkEvent k false false)) ;;
  handleKeydown.

End Whitespace.

(** *** Bootstrap and refresh, as far as the engine sees them *)

Definition initialize : M unit := initVimInfo ;; createInfoContainer.

(* attemptToFindElements and the mutation observer: a non-empty discovery
   replaces the registry. *)
Definition refresh (editableElements : list HTMLElement) : M unit :=
  match editableElements with
  | [] => ret tt
  | _ => setLines editableElements
  end.

(** The page before the script runs: nothing focused but [body], no
    selection, no subscription. *)
Definition page (body : HTMLElement) : World :=
  mkWorld (mkVimInfo 0 0 [] normal) (Some body) None [] [] None
          (mkEvent "" false false).

(** ** Vocabulary of the properties *)

(** The five motions of normal mode, as [normalReducer] invokes them. *)
Inductive Motion : Type :=
| characterLeft | characterRight | lineUp | lineDown | wordForward.

Definition motion (whitespace : ascii -> bool) (m : Motion) : M unit :=
  match m with
  | characterLeft => moveCursorBackwards
  | characterRight => moveCursorForwards
  | lineUp => a <- getActiveLine ;; setActiveLine (a - 1)
  | lineDown => a <- getActiveLine ;; setActiveLine (a + 1)
  | wordForward => jumpToNextWORD whitespace None None
  end.

(** Is the code unit at index [k] of [text] in the class? *)
Definition whitespaceAt (cls : ascii -> bool) (text : string) (k : Z) : bool :=
  match Js.charAt text k with
  | Some c => cls c
  | None => false
  end.

(** [k] is the index of the first whitespace at or after [start]. *)
Definition firstWhitespaceFrom (cls : ascii -> bool) (text : string)
           (start k : Z) : Prop :=
  start <= k /\ whitespaceAt cls text k = true /\
  forall j, start <= j < k -> whitespaceAt cls text j = false.

Definition noWhitespaceFrom (cls : ascii -> bool) (text : string)
           (start : Z) : Prop :=
  forall j, start <= j -> whitespaceAt cls text j = false.

(** The offset at which the scan of [jumpToNextWORD] stops: the index of
    the whitespace found, the length of the text without one. *)
Definition nextWhiteSpaceIndex (cls : ascii -> bool) (text : string)
           (cur : Z) : Z :=
  let found := RegExp.search cls (Js.slice text cur) in
  if 0 <=? found then cur + found else Js.length text.

(** Does the surface of a tracked line hold a keydown subscription? *)
Definition subscribed (w : World) (l : TrackedLine) : bool :=
  existsb (Nat.eqb (uid (element l))) (keydown w).

Definition subscribedLines (w : World) : list TrackedLine :=
  filter (subscribed w) (lines (vim_info w)).

(** The linear offset at which the selection is read in surface [el]. *)
Definition offsetIn (el : HTMLElement) (w : World) : option Z :=
  match selection w with
  | None => None
  | Some range =>
      Some (snd (checkElementNode range (rootRef el) (asNode el) 0))
  end.

(** Where [setCursorPosition] puts the caret, as a function: the world is
    left alone when this is [None]. *)
Section CaretLoop.
Variable rec : NodeRef -> Node -> Z -> option Range.

Fixpoint caretChildNodes (self : NodeRef) (k : nat) (nodes : list Node)
         (i index : Z) : option Range :=
  match nodes with
  | [] => None
  | node :: rest =>
      if (i <=? index) && (index <=? i + textLength node) then
        match node with
        | Element _ => rec (childRef self k) node (index - i)
        | Text _ => Some (mkRange (childRef self k) (index - i))
        end
      else caretChildNodes self (S k) rest (i + textLength node) index
  end.
End CaretLoop.

Fixpoint caretNode (self : NodeRef) (element : Node) (index : Z)
  : option Range :=
  match element with
  | Element cs => caretChildNodes caretNode self 0 cs 0 index
  | Text _ => None
  end.

Definition withCaret (c : option Range) (w : World) : World :=
  match c with
  | Some r => set_selection (Some r) w
  | None => w
  end.

Definition isText (n : Node) : bool :=
  match n with
  | Text _ => true
  | Element _ => false
  end.

(** A non-empty run of text nodes. *)
Definition textRun (nodes : list Node) : bool :=
  match nodes with
  | [] => false
  | _ => forallb isText nodes
  end.

(** A text node, or an element around a run of text. *)
Definition shallowNode (n : Node) : bool :=
  match n with
  | Text _ => true
  | Element cs => textRun cs
  end.

(** A surface with content whose text is formatted at most one level deep:
    [<div>plain <b>bold</b> plain</div>]. *)
Definition shallow (el : HTMLElement) : Prop :=
  forallb shallowNode (childNodes el) = true /\ childNodes el <> [].

(** The call with outcome [r] from world [w] moved the cursor of [el] to
    offset [o]: it did what [setCursorPosition(el, o)] does, so that on a
    shallow surface the cursor is read back at [o]. *)
Definition landsAt (el : HTMLElement) (o : Z) (w : World) (r : Result unit)
  : Prop :=
  r = setCursorPosition (Some el) o w /\
  (shallow el -> 0 <= o <= Js.length (elementText el) ->
   offsetIn el (final r) = Some o).

(** The sum of the text lengths of a list of nodes. *)
Fixpoint textLengths (nodes : list Node) : Z :=
  match nodes with
  | [] => 0
  | n :: rest => textLength n + textLengths rest
  end.

(** The worlds the engine reaches: the script starts on a page, discovery
    and the mutation observer refresh the registry, and key events arrive at
    a subscribed surface. *)
Inductive Reachable (whitespace : ascii -> bool) : World -> Prop :=
| reach_start body :
    Reachable whitespace (final (initialize (page body)))
| reach_refresh w editableElements :
    Reachable whitespace w ->
    Reachable whitespace (final (refresh editableElements w))
| reach_keydown w k :
    Reachable whitespace w -> keydown w <> [] ->
    Reachable whitespace (final (dispatchKeydown whitespace k w)).

(** Concrete surfaces and worlds the properties are evaluated on. *)
Module Sample.

Definition body : HTMLElement := mkElement 0 [Text "ab"].
Definition hello_world : HTMLElement := mkElement 1 [Text "hello world"].
Definition hello : HTMLElement := mkElement 1 [Text "hello"].
Definition first_line : HTMLElement := mkElement 1 [Text "abc"].
Definition next_line : HTMLElement := mkElement 2 [Text "  next"].
Definition added_line : HTMLElement := mkElement 3 [Text "x"].

(* <div><b><i>ab</i></b>cd</div> *)
Definition nested : HTMLElement :=
  mkElement 1 [Element [Element [Text "ab"]]; Text "cd"].

(* <div><br>ab</div> *)
Definition leading_break : HTMLElement :=
  mkElement 1 [Element []; Text "ab"].

(* [el] focused with the caret at offset [o], the engine just started. *)
Definition caretAt (el : HTMLElement) (o : Z) : World :=
  final ((initialize ;; setCursorPosition (Some el) o) (page el)).

(* The caret sits in [body] while the focus has moved to [hello]. *)
Definition caretElsewhere : World :=
  set_activeElement (Some hello) (caretAt body 1).

(* Two registered lines, the first one focused with the caret at its end. *)
Definition two_lines : World :=
  final ((initialize ;; refresh [first_line; next_line] ;;
          setCursorPosition (Some first_line) 3) (page first_line)).

End Sample.

(** A function of the world that no call changes, returned or thrown. *)
Definition preserves {A B} (f : World -> B) (m : M A) : Prop :=
  forall w, f (final (m w)) = f w.

(** A call that returns whenever something is focused. *)
Definition safe {A} (m : M A) : Prop :=
  forall w, activeElement w <> None -> returns (m w).

(** Observations that only the dispatched event can change. *)
Class Framed {B} (f : World -> B) : Prop := {
  framed_vim_info : forall v w, f (set_vim_info v w) = f w;
  framed_selection : forall r w, f (set_selection r w) = f w;
  framed_keydown : forall l w, f (set_keydown l w) = f w;
  framed_clicked : forall l w, f (set_clicked l w) = f w;
  framed_vim_mode : forall t w, f (set_vim_mode t w) = f w
}.

(** Structural induction on content trees, through the child lists. *)
Section NodeInduction.
Variable P : Node -> Prop.
Hypothesis P_Text : forall data, P (Text data).
Hypothesis P_Element : forall cs, Forall P cs -> P (Element cs).

Fixpoint Node_induction (n : Node) : P n :=
  match n with
  | Text data => P_Text data
  | Element cs =>
      P_Element cs
        ((fix all (l : list Node) : Forall P l :=
            match l with
            | [] => Forall_nil P
            | c :: l' => Forall_cons c (Node_induction c) (all l')
            end) cs)
  end.
End NodeInduction.

(** ** Discovery and bootstrap *)

(** What [document.querySelectorAll] answers at some moment. *)
Definition Document : Type := string -> list HTMLElement.

Definition selectors : list string :=
  [".notion-page-content [contenteditable=true]";
   "[class*='notion'] [contenteditable=true]";
   "[contenteditable=true]"].

(* The loop of findNotionEditableBlocks over the selectors still to try. *)
Fixpoint firstNonEmpty (document : Document) (candidates : list string)
  : list HTMLElement :=
  match candidates with
  | [] => []
  | selector :: rest =>
      let elements := document selector in
      if 0 <? Z.of_nat (List.length elements) then elements
      else firstNonEmpty document rest
  end.

Definition findNotionEditableBlocks (document : Document) : list HTMLElement :=
  firstNonEmpty document selectors.

(** A mutation record, by the lengths of its node lists. *)
Record MutationRecord : Type := mkMutation {
  addedNodes : nat;
  removedNodes : nat
}.

(** The engine with the state of its bootstrap: the world, the attempt
    counter of [initializeWithRetry], whether its interval is still set,
    whether the timeout of [setupMutationObserver] is pending and whether
    the observer is installed. *)
Record Session : Type := mkSession {
  world : World;
  attempts : Z;
  poll : bool;
  observerTimer : bool;
  observer : bool
}.

Definition maxAttempts : Z := 10.

Definition attemptToFindElements (document : Document) (s : Session)
  : bool * Session :=
  let attempts' := attempts s + 1 in
  let editableElements := findNotionEditableBlocks document in
  if 0 <? Z.of_nat (List.length editableElements) then
    (true, mkSession (final (setLines editableElements (world s))) attempts'
                     (poll s) (observerTimer s) (observer s))
  else
    (false, mkSession (world s) attempts' (poll s) (observerTimer s)
                      (observer s)).

(** [initializeWithRetry] up to its return: the interval and the observer's
    timeout are only set when the first attempt finds nothing. *)
Definition initializeWithRetry (document : Document) (w : World) : Session :=
  let started := final ((initVimInfo ;; createInfoContainer) w) in
  let '(found, s) :=
    attemptToFindElements document (mkSession started 0 false false false) in
  if found then s
  else mkSession (world s) (attempts s) true true (observer s).

(** What happens to a running session. *)
Inductive Happening : Type :=
| IntervalFires (document : Document)
| TimeoutFires
| Mutated (mutations : list MutationRecord) (document : Document)
| KeyPressed (k : string)
| HostFocuses (el : option HTMLElement)
| HostSelects (r : option Range).

(* The for loop of the observer's callback. *)
Definition shouldRefresh (mutations : list MutationRecord) : bool :=
  existsb (fun mutation =>
             (Nat.ltb 0 (addedNodes mutation)
              || Nat.ltb 0 (removedNodes mutation))%bool) mutations.

Definition with_world (w : World) (s : Session) : Session :=
  mkSession w (attempts s) (poll s) (observerTimer s) (observer s).

Section Running.
Variable whitespace : ascii -> bool.

Definition happen (h : Happening) (s : Session) : Session :=
  match h with
  | IntervalFires document =>
      if poll s then
        let '(found, s') := attemptToFindElements document s in
        if (found || (maxAttempts <=? attempts s'))%bool
        then mkSession (world s') (attempts s') false (observerTimer s')
                       (observer s')                       (* clearInterval *)
        else s'
      else s
  | TimeoutFires =>
      if observerTimer s
      then mkSession (world s) (attempts s) (poll s) false true
      else s
  | Mutated mutations document =>
      if (observer s && shouldRefresh mutations)%bool then
        let editableElements := findNotionEditableBlocks document in
        if 0 <? Z.of_nat (List.length editableElements)
        then with_world (final (setLines editableElements (world s))) s
        else s
      else s
  | KeyPressed k =>
      (* the handler runs on a subscribed surface only *)
      match keydown (world s) with
      | [] => s
      | _ => with_world (final (dispatchKeydown whitespace k (world s))) s
      end
  | HostFocuses el => with_world (set_activeElement el (world s)) s
  | HostSelects r => with_world (set_selection r (world s)) s
  end.

Fixpoint run (happenings : list Happening) (s : Session) : Session :=
  match happenings with
  | [] => s
  | h :: rest => run rest (happen h s)
  end.
End Running.

(** ** Positions in a content tree *)

(** The node the child indices [p] lead to. *)
Fixpoint nodeAt (n : Node) (p : list nat) : option Node :=
  match p with
  | [] => Some n
  | k :: q =>
      match n with
      | Element cs =>
          match nth_error cs k with
          | Some c => nodeAt c q
          | None => None
          end
      | Text _ => None
      end
  end.

(** The length of the text that precedes position [p] in document order. *)
Fixpoint textBefore (n : Node) (p : list nat) : Z :=
  match p with
  | [] => 0
  | k :: q =>
      match n with
      | Element cs =>
          textLengths (firstn k cs) +
          match nth_error cs k with
          | Some c => textBefore c q
          | None => 0
          end
      | Text _ => 0
      end
  end.

(** The anchor of [r] is the text node [data] of the surface [el], with an
    offset inside it. *)
Definition anchoredIn (el : HTMLElement) (r : Range) (data : string) : Prop :=
  owner (startContainer r) = uid el /\
  nodeAt (asNode el) (path (startContainer r)) = Some (Text data) /\
  0 <= startOffset r <= Js.length data.

(** The anchor of [r] is no text node of the surface [el]. *)
Definition notInText (el : HTMLElement) (r : Range) : Prop :=
  owner (startContainer r) <> uid el \/
  forall data, nodeAt (asNode el) (path (startContainer r)) <> Some (Text data).

(** A selection as the DOM keeps it with respect to the surface [el]: an
    anchor in one of its text nodes has its offset inside that node. *)
Definition wellAnchored (el : HTMLElement) (r : Range) : Prop :=
  owner (startContainer r) = uid el ->
  forall data, nodeAt (asNode el) (path (startContainer r)) = Some (Text data) ->
  0 <= startOffset r <= Js.length data.

(** The registry's indices are in range and its bookkeeping is as
    [setLines] left it. *)
Definition activeInRange (w : World) : Prop :=
  let v := vim_info w in
  0 <= active_line v /\
  (lines v <> [] -> active_line v < Z.of_nat (List.length (lines v))).

(** Two worlds with the same registry, subscriptions and indicator. *)
Definition sameRegistry (w1 w2 : World) : Prop :=
  vim_info w1 = vim_info w2 /\ keydown w1 = keydown w2 /\
  vim_mode w1 = vim_mode w2.

(** What the engine keeps true between two happenings. *)
Definition engineInvariant (w : World) : Prop :=
  let v := vim_info w in
  activeInRange w /\
  (lines v <> [] ->
   exists l, at_index (lines v) (active_line v) = Some l /\
             subscribed w l = true) /\
  vim_mode w = Some (getModeText (mode v)) /\
  cursor_position v = 0 /\
  Forall (fun l => line_cursor_position l = 0) (lines v).

(** How often the interval fires in a run. *)
Fixpoint intervalFirings (happenings : list Happening) : Z :=
  match happenings with
  | [] => 0
  | IntervalFires _ :: rest => 1 + intervalFirings rest
  | _ :: rest => intervalFirings rest
  end.

(** No record of the batch adds or removes a node. *)
Definition noNodeChange (mutations : list MutationRecord) : Prop :=
  Forall (fun mutation => addedNodes mutation = 0%nat /\
                          removedNodes mutation = 0%nat) mutations.

(** Between 1 and 10 attempts were made, fewer than 10 while the interval
    is set. *)
Definition counted (s : Session) : Prop :=
  1 <= attempts s <= maxAttempts /\
  (poll s = true -> attempts s < maxAttempts).

(** A call that never consults [vim_info]: whatever registry the world
    holds, it has the same outcome and carries the registry along. *)
Definition ignoresRegistry (m : M unit) : Prop :=
  forall v w,
    match m w with
    | Ok _ w' => m (set_vim_info v w) = Ok tt (set_vim_info v w')
    | TypeError w' => m (set_vim_info v w) = TypeError (set_vim_info v w')
    end.

(** * Properties *)

(** ** Strings *)

Lemma length_nonneg s : 0 <= Js.length s.
Proof. unfold Js.length. lia. Qed.

Lemma length_append s t :
  String.length (s ++ t) = (String.length s + String.length t)%nat.
Proof. induction s as [|c s IH]; simpl; [reflexivity | now rewrite IH]. Qed.

Lemma length_concat_cons s l :
  Js.length (String.concat "" (s :: l)) =
  Js.length s + Js.length (String.concat "" l).
Proof.
  unfold Js.length. destruct l as [|t l].
  - simpl. lia.
  - change (String.concat "" (s :: t :: l))
      with (s ++ "" ++ String.concat "" (t :: l)).
    rewrite length_append. cbn [String.append]. lia.
Qed.

Lemma textLength_Element cs : textLength (Element cs) = textLengths cs.
Proof.
  unfold textLength. simpl. induction cs as [|c cs IH].
  - reflexivity.
  - simpl map. rewrite length_concat_cons. simpl. unfold textLength at 1.
    now rewrite IH.
Qed.

Lemma textLength_nonneg n : 0 <= textLength n.
Proof. apply length_nonneg. Qed.

Lemma textLengths_nonneg cs : 0 <= textLengths cs.
Proof.
  induction cs as [|c cs IH]; simpl; [lia|].
  pose proof (textLength_nonneg c). lia.
Qed.

Lemma get_drop n : forall s m, String.get m (Js.drop n s) = String.get (n + m) s.
Proof.
  induction n as [|n IH]; intros s m; simpl.
  - reflexivity.
  - destruct s as [|c s]; simpl.
    + reflexivity.
    + apply IH.
Qed.

Lemma get_length s : forall n, String.get n s = None <-> (String.length s <= n)%nat.
Proof.
  induction s as [|c s IH]; intros n; simpl.
  - split; [lia | reflexivity].
  - destruct n as [|n].
    + split; [discriminate | lia].
    + rewrite IH. lia.
Qed.

Lemma search_from_found cls : forall s n k c,
  String.get n s = Some c -> cls c = true ->
  (forall m c', (m < n)%nat -> String.get m s = Some c' -> cls c' = false) ->
  RegExp.search_from cls s k = k + Z.of_nat n.
Proof.
  induction s as [|a s IH]; intros n k c Hget Hc Hbefore.
  - discriminate.
  - destruct n as [|n]; simpl in *.
    + injection Hget as ->. rewrite Hc. lia.
    + rewrite (Hbefore O a) by (lia || reflexivity).
      rewrite (IH n (k + 1) c Hget Hc); [lia|].
      intros m c' Hm Hm'. apply (Hbefore (S m) c'); [lia | exact Hm'].
Qed.

Lemma search_from_none cls : forall s k,
  (forall m c, String.get m s = Some c -> cls c = false) ->
  RegExp.search_from cls s k = -1.
Proof.
  induction s as [|a s IH]; intros k Hnone; simpl.
  - reflexivity.
  - rewrite (Hnone O a eq_refl). apply IH.
    intros m c Hm. apply (Hnone (S m) c Hm).
Qed.

Lemma whitespaceAt_get cls text k c :
  0 <= k -> String.get (Z.to_nat k) text = Some c ->
  whitespaceAt cls text k = cls c.
Proof.
  intros Hk Hget. unfold whitespaceAt, Js.charAt.
  destruct (Z.ltb_spec k 0); [lia|]. now rewrite Hget.
Qed.

Lemma whitespaceAt_inside cls text k :
  whitespaceAt cls text k = true -> 0 <= k < Js.length text.
Proof.
  unfold whitespaceAt, Js.charAt, Js.length.
  destruct (Z.ltb_spec k 0); [discriminate|].
  destruct (String.get (Z.to_nat k) text) eqn:Hget; [|discriminate].
  intros _. split; [assumption|].
  destruct (Nat.le_gt_cases (String.length text) (Z.to_nat k)) as [Hle|Hlt].
  - apply get_length in Hle. congruence.
  - lia.
Qed.

(** The scan of [jumpToNextWORD] finds the first whitespace at or after the
    starting offset. *)
Lemma search_slice_found cls text start k :
  0 <= start -> firstWhitespaceFrom cls text start k ->
  RegExp.search cls (Js.slice text start) = k - start /\ k < Js.length text.
Proof.
  intros Hstart (Hle & Hk & Hbefore).
  pose proof (whitespaceAt_inside _ _ _ Hk) as [Hk0 Hklen].
  split; [|assumption].
  unfold Js.slice. destruct (Z.ltb_spec start 0); [lia|].
  rewrite Z.min_l by lia.
  unfold whitespaceAt, Js.charAt in Hk. destruct (Z.ltb_spec k 0); [lia|].
  destruct (String.get (Z.to_nat k) text) as [c|] eqn:Hget; [|discriminate].
  unfold RegExp.search.
  rewrite (@search_from_found cls _ (Z.to_nat (k - start)) 0 c).
  - lia.
  - rewrite get_drop. replace (Z.to_nat start + Z.to_nat (k - start))%nat
      with (Z.to_nat k) by lia. exact Hget.
  - exact Hk.
  - intros m c' Hm Hm'. rewrite get_drop in Hm'.
    rewrite <- (Hbefore (start + Z.of_nat m)) by lia.
    symmetry. apply whitespaceAt_get; [lia|].
    replace (Z.to_nat (start + Z.of_nat m)) with (Z.to_nat start + m)%nat by lia.
    exact Hm'.
Qed.

Lemma search_slice_none cls text start :
  0 <= start -> noWhitespaceFrom cls text start ->
  RegExp.search cls (Js.slice text start) = -1.
Proof.
  intros Hstart Hnone. unfold Js.slice, RegExp.search.
  destruct (Z.ltb_spec start 0); [lia|].
  apply search_from_none. intros m c Hm. rewrite get_drop in Hm.
  pose proof (length_nonneg text) as Hlen.
  destruct (Z.le_gt_cases start (Js.length text)) as [Hin|Hout].
  - rewrite Z.min_l in Hm by lia.
    rewrite <- (Hnone (start + Z.of_nat m)) by lia.
    symmetry. apply whitespaceAt_get; [lia|].
    replace (Z.to_nat (start + Z.of_nat m)) with (Z.to_nat start + m)%nat by lia.
    exact Hm.
  - rewrite Z.min_r in Hm by lia.
    assert (String.get (Z.to_nat (Js.length text) + m) text = None) as Hn.
    { apply get_length. unfold Js.length. lia. }
    congruence.
Qed.

(** ** The state-passing layer *)

Lemma bind_Ok {A B} (m : M A) (k : A -> M B) w a w' :
  m w = Ok a w' -> bind m k w = k a w'.
Proof. intros H. unfold bind. now rewrite H. Qed.

Lemma preserves_ret {A B} (f : World -> B) (a : A) : preserves f (ret a).
Proof. intros w. reflexivity. Qed.

Lemma preserves_throw {A B} (f : World -> B) : preserves f (@throw A).
Proof. intros w. reflexivity. Qed.

Lemma preserves_gets {A B} (f : World -> B) (g : World -> A) :
  preserves f (gets g).
Proof. intros w. reflexivity. Qed.

Lemma preserves_bind {A B C} (f : World -> C) (m : M A) (k : A -> M B) :
  preserves f m -> (forall a, preserves f (k a)) -> preserves f (bind m k).
Proof.
  intros Hm Hk w. unfold bind. specialize (Hm w).
  destruct (m w) as [a w'|w']; simpl in *.
  - rewrite Hk. exact Hm.
  - exact Hm.
Qed.

#[export] Instance Framed_event : Framed event.
Proof. split; reflexivity. Qed.

#[export] Instance Framed_activeElement : Framed activeElement.
Proof. split; reflexivity. Qed.

(** ** Cursor position model *)

Lemma setCursorChildNodes_caret recM recP nodes index :
  Forall (fun n => forall self idx w,
            recM self n idx w = Ok tt (withCaret (recP self n idx) w)) nodes ->
  forall self k i w,
    setCursorChildNodes recM self k nodes i index w =
    Ok tt (withCaret (caretChildNodes recP self k nodes i index) w).
Proof.
  induction 1 as [|node rest Hnode _ IH]; intros self k i w; simpl.
  - reflexivity.
  - destruct node as [data|cs];
      destruct ((i <=? index) && (index <=? i + _))%bool;
      try apply IH.
    + reflexivity.
    + apply Hnode.
Qed.

(** [setCursorPosition] returns, and changes at most the selection. *)
Lemma setCursorNode_caret : forall n self index w,
  setCursorNode self n index w =
  Ok tt (withCaret (caretNode self n index) w).
Proof.
  intros n. pattern n. apply Node_induction; clear n;
    [intros data | intros cs IH]; intros self index w; simpl.
  - reflexivity.
  - now apply setCursorChildNodes_caret.
Qed.

Lemma setCursorPosition_caret el index w :
  setCursorPosition (Some el) index w =
  Ok tt (withCaret (caretNode (rootRef el) (asNode el) index) w).
Proof. apply setCursorNode_caret. Qed.

Lemma withCaret_frame {B} (f : World -> B) `{!Framed f} c w :
  f (withCaret c w) = f w.
Proof. destruct c; simpl; [apply framed_selection | reflexivity]. Qed.

Lemma withCaret_vim_info c w : vim_info (withCaret c w) = vim_info w.
Proof. now destruct c. Qed.

Lemma preserves_setCursorPosition {B} (f : World -> B) `{!Framed f} el index :
  preserves f (setCursorPosition el index).
Proof.
  intros w. destruct el as [el|]; [|reflexivity].
  rewrite setCursorPosition_caret. simpl. now apply withCaret_frame.
Qed.

Lemma getCursorIndex_unchanged w :
  final (getCursorIndex w) = w.
Proof.
  unfold getCursorIndex, bind, gets, ret, throw.
  destruct (selection w); [destruct (activeElement w)|]; reflexivity.
Qed.

Lemma preserves_getCursorIndex {B} (f : World -> B) : preserves f getCursorIndex.
Proof. intros w. now rewrite getCursorIndex_unchanged. Qed.

(** Past the end of the text no child is in range: the loop runs out. *)
Lemma caretChildNodes_beyond rec self index : forall nodes k i,
  i + textLengths nodes < index ->
  caretChildNodes rec self k nodes i index = None.
Proof.
  induction nodes as [|node rest IH]; intros k i Hlt; simpl in *.
  - reflexivity.
  - pose proof (textLengths_nonneg rest). pose proof (textLength_nonneg node).
    destruct (Z.leb_spec index (i + textLength node)); [lia|].
    rewrite andb_false_r. apply IH. lia.
Qed.

Lemma list_nat_eqb_app p : forall k j,
  list_nat_eqb (p ++ [k]) (p ++ [j]) = Nat.eqb k j.
Proof.
  induction p as [|x p IH]; intros k j; simpl.
  - apply andb_true_r.
  - now rewrite Nat.eqb_refl, IH.
Qed.

Lemma isSameNode_childRef self k j :
  isSameNode (childRef self k) (childRef self j) = Nat.eqb k j.
Proof.
  unfold isSameNode, childRef. simpl.
  now rewrite Nat.eqb_refl, list_nat_eqb_app.
Qed.

(** On a surface of text nodes only, the caret lands in the first text node
    whose span contains the offset, and is read back where it was put. *)
Lemma flat_roundtrip rec self index : forall nodes k i,
  forallb isText nodes = true -> nodes <> [] ->
  i <= index <= i + textLengths nodes ->
  exists j off,
    (k <= j)%nat /\
    caretChildNodes rec self k nodes i index =
      Some (mkRange (childRef self j) off) /\
    forall rec' i',
      checkChildNodes (mkRange (childRef self j) off) rec' self k nodes i' =
      (true, i' + (index - i)).
Proof.
  induction nodes as [|node rest IH]; intros k i Hflat Hne Hrange.
  - contradiction.
  - destruct node as [data|cs]; [|discriminate].
    simpl in Hflat, Hrange. change (textLength (Text data)) with (Js.length data) in *.
    simpl. change (textLength (Text data)) with (Js.length data).
    destruct (Z.leb_spec i index) as [_|]; [|lia].
    destruct (Z.leb_spec index (i + Js.length data)) as [Hin|Hout]; simpl.
    + exists k, (index - i). split; [lia|]. split; [reflexivity|].
      intros rec' i'. simpl.
      now rewrite isSameNode_childRef, Nat.eqb_refl.
    + assert (rest <> []) as Hrest.
      { intros ->. simpl in Hrange. lia. }
      destruct (IH (S k) (i + Js.length data) Hflat Hrest)
        as (j & off & Hj & Hcaret & Hcheck); [lia|].
      exists j, off. split; [lia|]. split; [exact Hcaret|].
      intros rec' i'. simpl. rewrite isSameNode_childRef.
      destruct (Nat.eqb_spec k j); [lia|].
      rewrite Hcheck. f_equal. lia.
Qed.

Lemma textRun_spec nodes :
  textRun nodes = true -> forallb isText nodes = true /\ nodes <> [].
Proof. destruct nodes; [discriminate|]. intros H. split; [exact H | discriminate]. Qed.

Lemma list_nat_eqb_diverge p : forall k a j b,
  k <> j -> list_nat_eqb (p ++ k :: a) (p ++ j :: b) = false.
Proof.
  induction p as [|x p IH]; intros k a j b Hkj; simpl.
  - now destruct (Nat.eqb_spec k j).
  - rewrite Nat.eqb_refl. now apply IH.
Qed.

(** A run of text nodes none of which is the anchor is counted whole. *)
Lemma flat_miss range rec parent : forall nodes k i,
  forallb isText nodes = true ->
  (forall m, isSameNode (childRef parent m) (startContainer range) = false) ->
  checkChildNodes range rec parent k nodes i = (false, i + textLengths nodes).
Proof.
  induction nodes as [|node rest IH]; intros k i Hflat Hmiss; simpl.
  - f_equal. lia.
  - destruct node as [data|cs]; [|discriminate].
    rewrite Hmiss, (IH _ _ Hflat Hmiss).
    change (textLength (Text data)) with (Js.length data). f_equal. lia.
Qed.

(** The loop of [setCursorPosition] over shallow content, and the loop of
    [getCursorIndex] run on the anchor it chose. *)
Lemma shallow_roundtrip self index : forall nodes k i,
  forallb shallowNode nodes = true -> nodes <> [] ->
  i <= index <= i + textLengths nodes ->
  exists container off j q,
    (k <= j)%nat /\
    container = mkRef (owner self) (path self ++ j :: q) /\
    caretChildNodes caretNode self k nodes i index =
      Some (mkRange container off) /\
    forall i',
      snd (checkChildNodes (mkRange container off)
                           (checkElementNode (mkRange container off))
                           self k nodes i') = i' + (index - i).
Proof.
  induction nodes as [|node rest IH]; intros k i Hshallow Hne Hrange.
  - contradiction.
  - simpl in Hshallow. apply andb_prop in Hshallow as [Hnode Hrest].
    simpl in Hrange. simpl caretChildNodes.
    destruct (Z.leb_spec i index) as [_|]; [|lia].
    destruct (Z.leb_spec index (i + textLength node)) as [Hin|Hout];
      cbn [andb].
    + destruct node as [data|cs].
      * exists (childRef self k), (index - i), k, []. split; [lia|].
        split; [reflexivity|]. split; [reflexivity|].
        intros i'. simpl. now rewrite isSameNode_childRef, Nat.eqb_refl.
      * apply textRun_spec in Hnode as [Hflat Hcs].
        rewrite textLength_Element in Hin.
        destruct (@flat_roundtrip caretNode (childRef self k) (index - i)
                    cs 0%nat 0 Hflat Hcs)
          as (j & off & _ & Hcaret & Hcheck); [lia|].
        exists (childRef (childRef self k) j), off, k, [j].
        split; [lia|]. split.
        { unfold childRef. simpl. now rewrite <- app_assoc. }
        split; [exact Hcaret|].
        intros i'. simpl. rewrite Hcheck. simpl. lia.
    + assert (rest <> []) as Hrest'.
      { intros ->. simpl in Hrange. lia. }
      destruct (IH (S k) (i + textLength node) Hrest Hrest')
        as (container & off & j & q & Hj & Hpath & Hcaret & Hcheck); [lia|].
      exists container, off, j, q. split; [lia|]. split; [exact Hpath|].
      split; [exact Hcaret|].
      assert (forall a, isSameNode (mkRef (owner self) (path self ++ k :: a))
                                   container = false) as Hoff.
      { intros a. rewrite Hpath. unfold isSameNode. simpl.
        rewrite list_nat_eqb_diverge by lia. apply andb_false_r. }
      intros i'. simpl. destruct node as [data|cs].
      * change (childRef self k)
          with (mkRef (owner self) (path self ++ [k])).
        rewrite Hoff, Hcheck.
        change (textLength (Text data)) with (Js.length data). lia.
      * apply textRun_spec in Hnode as [Hflat _].
        change (checkElementNode ?r ?s (Element cs) ?a)
          with (checkChildNodes r (checkElementNode r) s 0 cs a).
        rewrite (flat_miss (mkRange container off) _ (childRef self k)
                           cs 0%nat i' Hflat).
        { rewrite Hcheck, textLength_Element. lia. }
        intros m. unfold childRef. simpl. rewrite <- app_assoc. apply Hoff.
Qed.

(** The round trip through the position mapping is exact on shallow
    surfaces. *)
Lemma roundtrip_shallow el o w :
  shallow el -> 0 <= o <= Js.length (elementText el) ->
  offsetIn el (final (setCursorPosition (Some el) o w)) = Some o.
Proof.
  intros [Hshallow Hne] Ho. rewrite setCursorPosition_caret. simpl final.
  change (Js.length (elementText el))
    with (textLength (Element (childNodes el))) in Ho.
  rewrite textLength_Element in Ho.
  destruct (shallow_roundtrip (rootRef el) o (childNodes el) 0%nat 0
              Hshallow Hne)
    as (container & off & _ & _ & _ & _ & Hcaret & Hcheck); [lia|].
  unfold asNode. simpl caretNode. rewrite Hcaret. unfold withCaret, offsetIn.
  simpl selection. cbv iota. f_equal. unfold asNode.
  change (checkElementNode ?r (rootRef el) (Element (childNodes el)) 0)
    with (checkChildNodes r (checkElementNode r) (rootRef el) 0
                          (childNodes el) 0).
  rewrite Hcheck. lia.
Qed.

Lemma setCursorPosition_landsAt el o w :
  landsAt el o w (setCursorPosition (Some el) o w).
Proof. split; [reflexivity | intros; now apply roundtrip_shallow]. Qed.

Lemma getCursorIndex_offsetIn w el :
  activeElement w = Some el ->
  getCursorIndex w =
  Ok (match offsetIn el w with Some o => o | None => 0 end) w.
Proof.
  intros Hel. unfold getCursorIndex, offsetIn, bind, gets, ret.
  destruct (selection w); [now rewrite Hel | reflexivity].
Qed.

(** ** Line registry *)

Lemma at_index_range {A} (l : list A) i x :
  at_index l i = Some x -> 0 <= i < Z.of_nat (List.length l).
Proof.
  unfold at_index. destruct (Z.ltb_spec i 0); [discriminate|].
  intros Hx. assert (nth_error l (Z.to_nat i) <> None) as Hn by congruence.
  apply nth_error_Some in Hn. lia.
Qed.

Lemma clampIndex_inside len idx : 0 <= idx < len -> clampIndex len idx = idx.
Proof.
  intros H. unfold clampIndex.
  destruct (Z.leb_spec len idx); [lia|]. destruct (Z.ltb_spec idx 0); lia.
Qed.

Lemma clampIndex_range len idx : 0 < len -> 0 <= clampIndex len idx < len.
Proof.
  intros H. unfold clampIndex.
  destruct (Z.leb_spec len idx); [destruct (Z.ltb_spec (len - 1) 0)
                                 | destruct (Z.ltb_spec idx 0)]; lia.
Qed.

Lemma at_index_inside {A} (l : list A) i :
  0 <= i < Z.of_nat (List.length l) -> exists x, at_index l i = Some x.
Proof.
  intros Hi. unfold at_index. destruct (Z.ltb_spec i 0); [lia|].
  destruct (nth_error l (Z.to_nat i)) eqn:Hn; [now eexists|].
  apply nth_error_None in Hn. lia.
Qed.

(** The world [setActiveLine] leaves, field by field. *)
Lemma setActiveLine_returns idx w :
  setActiveLine idx w = Ok tt (final (setActiveLine idx w)).
Proof.
  unfold setActiveLine, getActiveLine, bind, gets, ret, modify.
  destruct (at_index _ (active_line _)); simpl;
    destruct (at_index _ (clampIndex _ _)); reflexivity.
Qed.

Lemma setActiveLine_vim_info idx w :
  let i := clampIndex (Z.of_nat (List.length (lines (vim_info w)))) idx in
  vim_info (final (setActiveLine idx w)) =
  match at_index (lines (vim_info w)) i with
  | Some _ => set_active_line i (vim_info w)
  | None => vim_info w
  end.
Proof.
  unfold setActiveLine, getActiveLine, bind, gets, ret, modify.
  destruct (at_index _ (active_line _)); simpl;
    destruct (at_index _ (clampIndex _ _)); reflexivity.
Qed.

Lemma setActiveLine_keydown idx w :
  let ls := lines (vim_info w) in
  let i := clampIndex (Z.of_nat (List.length ls)) idx in
  let released :=
    match at_index ls (active_line (vim_info w)) with
    | Some l => unsubscribe (uid (element l)) (keydown w)
    | None => keydown w
    end in
  keydown (final (setActiveLine idx w)) =
  match at_index ls i with
  | Some l => subscribe (uid (element l)) released
  | None => released
  end.
Proof.
  unfold setActiveLine, getActiveLine, bind, gets, ret, modify.
  destruct (at_index _ (active_line _)); simpl;
    destruct (at_index _ (clampIndex _ _)); reflexivity.
Qed.

Lemma setActiveLine_lines idx w :
  lines (vim_info (final (setActiveLine idx w))) = lines (vim_info w).
Proof.
  rewrite setActiveLine_vim_info. cbv zeta. now destruct (at_index _ _).
Qed.

Lemma setActiveLine_inside idx w l :
  at_index (lines (vim_info w)) idx = Some l ->
  vim_info (final (setActiveLine idx w)) = set_active_line idx (vim_info w).
Proof.
  intros Hl. rewrite setActiveLine_vim_info. cbv zeta.
  rewrite (clampIndex_inside _ _ (at_index_range _ _ _ Hl)). now rewrite Hl.
Qed.

Lemma preserves_setActiveLine {B} (f : World -> B) `{!Framed f} idx :
  preserves f (setActiveLine idx).
Proof.
  intros w. unfold setActiveLine, getActiveLine, bind, gets, ret, modify,
    removeEventListener, addEventListener, click, modify.
  destruct (at_index _ (active_line _)); simpl;
    destruct (at_index _ (clampIndex _ _)); simpl;
    now rewrite ?framed_vim_info, ?framed_keydown, ?framed_clicked,
      ?framed_keydown.
Qed.

(** ** Word-forward *)

Section WordForward.
Variable whitespace : ascii -> bool.

(** One activation, once the starting offset and the surface are known. *)
Lemma jumpToNextWORD_body_resolved self node start_position w el cur :
  match start_position with
  | Some p => ret p
  | None => getCursorIndex
  end w = Ok cur w ->
  match node with
  | Some n => Some n
  | None => activeElement w
  end = Some el ->
  jumpToNextWORD_body whitespace self node start_position w =
  let text := innerText el in
  let a := active_line (vim_info w) in
  if nextWhiteSpaceIndex whitespace text cur <? Js.length text then
    setCursorPosition (Some el) (nextWhiteSpaceIndex whitespace text cur + 1) w
  else
    match node, at_index (lines (vim_info w)) (a + 1) with
    | None, Some next =>
        (setActiveLine (a + 1) ;;
         if RegExp.test whitespace (Js.first (innerText (element next)))
         then self (Some (element next)) (Some 0)
         else setCursorPosition (Some (element next)) 0) w
    | _, _ => setCursorPosition (Some el) (nextWhiteSpaceIndex whitespace text cur) w
    end.
Proof.
  intros Hcur Hel. unfold jumpToNextWORD_body, getActiveLine, getLines.
  unfold bind at 1, gets at 1. unfold bind at 1, gets at 1.
  rewrite (bind_Ok _ _ _ _ _ Hcur).
  assert (match node with
          | Some n => ret (Some n)
          | None => gets activeElement
          end w = Ok (Some el) w) as Hnode.
  { destruct node; simpl in Hel; unfold ret, gets; now rewrite Hel. }
  rewrite (bind_Ok _ _ _ _ _ Hnode). unfold nextWhiteSpaceIndex.
  cbv zeta. destruct (_ <? _); [reflexivity|].
  destruct node; [reflexivity|]. now destruct (at_index _ _).
Qed.

(** With a node the outcome does not depend on the recursive call. *)
Lemma jumpToNextWORD_body_node self self' n start_position w :
  jumpToNextWORD_body whitespace self (Some n) start_position w =
  jumpToNextWORD_body whitespace self' (Some n) start_position w.
Proof.
  unfold jumpToNextWORD_body, getActiveLine, getLines, bind, gets.
  destruct start_position as [p|].
  - unfold ret. destruct (_ <? _); reflexivity.
  - destruct (getCursorIndex w) as [cur w'|w']; [|reflexivity].
    unfold ret. destruct (_ <? _); reflexivity.
Qed.

(** [jumpToNextWORD] is the function the source defines by recursion. *)
Lemma jumpToNextWORD_unfold node start_position w :
  jumpToNextWORD whitespace node start_position w =
  jumpToNextWORD_body whitespace (jumpToNextWORD whitespace)
                      node start_position w.
Proof.
  destruct node as [n|].
  - apply jumpToNextWORD_body_node.
  - unfold jumpToNextWORD at 1.
    unfold jumpToNextWORD_body at 1, getActiveLine, getLines.
    unfold jumpToNextWORD_body at 2, getActiveLine, getLines.
    unfold bind, gets.
    destruct start_position as [p|]; unfold ret.
    + destruct (activeElement w) as [el|]; [|reflexivity].
      destruct (_ <? _); [reflexivity|].
      destruct (at_index _ _) as [next|]; [|reflexivity].
      destruct (setActiveLine _ _) as [[] w1|w1]; [|reflexivity].
      destruct (RegExp.test _ _); [|reflexivity].
      apply jumpToNextWORD_body_node.
    + destruct (getCursorIndex w) as [cur w0|w0]; [|reflexivity].
      destruct (activeElement w0) as [el|]; [|reflexivity].
      destruct (_ <? _); [reflexivity|].
      destruct (at_index _ _) as [next|]; [|reflexivity].
      destruct (setActiveLine _ _) as [[] w1|w1]; [|reflexivity].
      destruct (RegExp.test _ _); [|reflexivity].
      apply jumpToNextWORD_body_node.
Qed.

Lemma jumpToNextWORD_resolved node start_position w el cur :
  match start_position with
  | Some p => ret p
  | None => getCursorIndex
  end w = Ok cur w ->
  match node with
  | Some n => Some n
  | None => activeElement w
  end = Some el ->
  jumpToNextWORD whitespace node start_position w =
  let text := innerText el in
  let a := active_line (vim_info w) in
  if nextWhiteSpaceIndex whitespace text cur <? Js.length text then
    setCursorPosition (Some el) (nextWhiteSpaceIndex whitespace text cur + 1) w
  else
    match node, at_index (lines (vim_info w)) (a + 1) with
    | None, Some next =>
        (setActiveLine (a + 1) ;;
         if RegExp.test whitespace (Js.first (innerText (element next)))
         then jumpToNextWORD whitespace (Some (element next)) (Some 0)
         else setCursorPosition (Some (element next)) 0) w
    | _, _ => setCursorPosition (Some el) (nextWhiteSpaceIndex whitespace text cur) w
    end.
Proof.
  intros Hcur Hel. rewrite jumpToNextWORD_unfold.
  now apply jumpToNextWORD_body_resolved.
Qed.

Lemma landing_found text cur k :
  0 <= cur -> firstWhitespaceFrom whitespace text cur k ->
  nextWhiteSpaceIndex whitespace text cur = k /\ k < Js.length text.
Proof.
  intros Hcur Hk. destruct (search_slice_found _ _ _ _ Hcur Hk) as [Hs Hlen].
  split; [|assumption]. unfold nextWhiteSpaceIndex. rewrite Hs.
  destruct Hk as (Hle & _). destruct (Z.leb_spec 0 (k - cur)); lia.
Qed.

Lemma landing_none text cur :
  0 <= cur -> noWhitespaceFrom whitespace text cur ->
  nextWhiteSpaceIndex whitespace text cur = Js.length text.
Proof.
  intros Hcur Hnone. unfold nextWhiteSpaceIndex.
  now rewrite (search_slice_none _ _ _ Hcur Hnone).
Qed.

End WordForward.

(** ** The claims about the cursor position model *)

(** C1. The round trip through the position mapping is not exact on every
    content tree: in [<div><b><i>ab</i></b>cd</div>] the caret put at offset
    1 is read back at offset 3, because [checkElementNode] reports "not
    found" after it breaks out of the loop on a nested hit, and the caller
    two levels up goes on counting the text that follows. *)
Theorem roundtrip_lost_below_nested_element :
  let S := Sample.nested in
  0 <= 1 <= Js.length (elementText S) /\
  exists w,
    (setCursorPosition (Some S) 1 ;; getCursorIndex) (page S) = Ok 3 w /\
    selection w = Some (mkRange (mkRef 1 [0; 0; 0]%nat) 1).
Proof.
  split; [vm_compute; split; discriminate|].
  eexists. split; reflexivity.
Qed.

(** The round trip is lost as well when an element without text stands at
    the offset: in [<div><br>ab</div>] with the caret at offset 2,
    [setCursorPosition] with offset 0 descends into the empty element,
    places nothing, and the caret is still read at 2. *)
Lemma roundtrip_lost_at_empty_element :
  let S := Sample.leading_break in
  let w := Sample.caretAt S 2 in
  offsetIn S w = Some 2 /\
  (setCursorPosition (Some S) 0 ;; getCursorIndex) w = Ok 2 w.
Proof. split; reflexivity. Qed.

(** C5 (as the code has it). For every surface and every offset beyond the
    length of its text, [setCursorPosition] returns without an error and
    leaves the world, hence the selection, as it was. *)
Theorem setCursorPosition_beyond_text_is_noop el o w :
  Js.length (elementText el) < o ->
  setCursorPosition (Some el) o w = Ok tt w.
Proof.
  intros Ho. rewrite setCursorPosition_caret.
  change (Js.length (elementText el))
    with (textLength (Element (childNodes el))) in Ho.
  rewrite textLength_Element in Ho.
  unfold asNode. simpl caretNode.
  rewrite caretChildNodes_beyond by lia. reflexivity.
Qed.

Lemma setCursorPosition_beyond_text_witness :
  setCursorPosition (Some Sample.hello) 6 (Sample.caretAt Sample.hello 2) =
  Ok tt (Sample.caretAt Sample.hello 2).
Proof.
  apply (@setCursorPosition_beyond_text_is_noop Sample.hello 6).
  vm_compute. reflexivity.
Defined.

(** C5, refuted as stated: on the text ["hello"] with the caret at offset
    2, [setCursorPosition] with offset 6 leaves the caret at 2 and not at
    the end of the text, 5. *)
Lemma setCursorPosition_does_not_clamp :
  let S := Sample.hello in
  let w := final (setCursorPosition (Some S) 6 (Sample.caretAt S 2)) in
  Js.length (elementText S) = 5 /\
  offsetIn S w = Some 2 /\
  offsetIn S w <> Some (Js.length (elementText S)).
Proof. vm_compute. repeat split; discriminate. Qed.

(** ** The claims about word-forward *)

Lemma jumpToNextWORD_found whitespace node start_position w el cur k :
  match start_position with
  | Some p => ret p
  | None => getCursorIndex
  end w = Ok cur w ->
  match node with
  | Some n => Some n
  | None => activeElement w
  end = Some el ->
  0 <= cur ->
  firstWhitespaceFrom whitespace (innerText el) cur k ->
  jumpToNextWORD whitespace node start_position w =
  setCursorPosition (Some el) (k + 1) w.
Proof.
  intros Hcur Hel Hpos Hk. destruct (landing_found _ _ _ _ Hpos Hk) as [Hland Hlen].
  rewrite (jumpToNextWORD_resolved whitespace node start_position _ _ _ Hcur Hel).
  cbv zeta. rewrite Hland.
  destruct (Z.ltb_spec k (Js.length (innerText el))); [reflexivity | lia].
Qed.

Lemma jumpToNextWORD_stays whitespace node start_position w el cur :
  match start_position with
  | Some p => ret p
  | None => getCursorIndex
  end w = Ok cur w ->
  match node with
  | Some n => Some n
  | None => activeElement w
  end = Some el ->
  0 <= cur ->
  noWhitespaceFrom whitespace (innerText el) cur ->
  node <> None \/
  at_index (lines (vim_info w)) (active_line (vim_info w) + 1) = None ->
  jumpToNextWORD whitespace node start_position w =
  setCursorPosition (Some el) (Js.length (innerText el)) w.
Proof.
  intros Hcur Hel Hpos Hnone Hstay.
  rewrite (jumpToNextWORD_resolved whitespace node start_position _ _ _ Hcur Hel).
  cbv zeta. rewrite (landing_none _ _ _ Hpos Hnone), Z.ltb_irrefl.
  destruct node as [n|]; [reflexivity|].
  destruct Hstay as [Hnode|Hlast]; [congruence|]. now rewrite Hlast.
Qed.

(** C4. Word-forward within one surface, from the offset [cur] of the
    surface [el] (given, or read from the focused surface): when the first
    whitespace at or after [cur] is at [found_index], the cursor is set to
    [found_index + 1]; when no whitespace occurs at or after [cur] and the
    motion stays in the surface (a node was passed, or no line follows), the
    cursor is set to the length of the text. *)
Theorem word_forward_within_surface whitespace node start_position w el cur :
  match start_position with
  | Some p => ret p
  | None => getCursorIndex
  end w = Ok cur w ->
  match node with
  | Some n => Some n
  | None => activeElement w
  end = Some el ->
  0 <= cur ->
  (forall found_index,
      firstWhitespaceFrom whitespace (innerText el) cur found_index ->
      landsAt el (found_index + 1) w
              (jumpToNextWORD whitespace node start_position w)) /\
  (noWhitespaceFrom whitespace (innerText el) cur ->
   node <> None \/
   at_index (lines (vim_info w)) (active_line (vim_info w) + 1) = None ->
   landsAt el (Js.length (innerText el)) w
           (jumpToNextWORD whitespace node start_position w)).
Proof.
  intros Hcur Hel Hpos. split.
  - intros k Hk.
    rewrite (jumpToNextWORD_found _ _ _ _ _ _ _ Hcur Hel Hpos Hk).
    apply setCursorPosition_landsAt.
  - intros Hnone Hstay.
    rewrite (jumpToNextWORD_stays _ _ _ _ _ _ Hcur Hel Hpos Hnone Hstay).
    apply setCursorPosition_landsAt.
Qed.

Lemma word_forward_within_surface_witness :
  offsetIn Sample.hello_world
    (final (jumpToNextWORD RegExp.space_class (Some Sample.hello_world)
                           (Some 0) (page Sample.body))) = Some 6 /\
  offsetIn Sample.hello
    (final (jumpToNextWORD RegExp.space_class (Some Sample.hello)
                           (Some 0) (page Sample.body))) = Some 5.
Proof.
  split.
  - destruct (@word_forward_within_surface RegExp.space_class
                (Some Sample.hello_world) (Some 0) (page Sample.body)
                Sample.hello_world 0 eq_refl eq_refl (Z.le_refl 0))
      as [Hfound _].
    apply (Hfound 5).
    + split; [lia|]. split; [reflexivity|].
      intros j Hj.
      assert (j = 0 \/ j = 1 \/ j = 2 \/ j = 3 \/ j = 4) as Hcases by lia.
      destruct Hcases as [->|[->|[->|[->| ->]]]]; reflexivity.
    + split; [reflexivity | vm_compute; discriminate].
    + vm_compute. split; discriminate.
  - destruct (@word_forward_within_surface RegExp.space_class
                (Some Sample.hello) (Some 0) (page Sample.body)
                Sample.hello 0 eq_refl eq_refl (Z.le_refl 0))
      as [_ Hend].
    apply Hend.
    + intros j Hj. unfold whitespaceAt, Js.charAt.
      destruct (Z.ltb_spec j 0); [lia|].
      destruct (Z.to_nat j) as [|[|[|[|[|n]]]]]; reflexivity.
    + left. discriminate.
    + split; [reflexivity | vm_compute; discriminate].
    + vm_compute. split; discriminate.
Defined.

Lemma test_first whitespace text :
  whitespaceAt whitespace text 0 = true ->
  RegExp.test whitespace (Js.first text) = true.
Proof.
  unfold whitespaceAt, Js.charAt, RegExp.test. simpl.
  destruct text as [|c text]; simpl; [discriminate|].
  intros Hc. now rewrite Hc.
Qed.

(** C3 (as the code has it). Word-forward from an offset of the focused
    line after which no whitespace occurs (its end, in particular), when
    the next tracked line begins with whitespace: [active_line] advances by
    one and the cursor is set to offset 1 of the new line, one past its
    first whitespace, whatever stands there. *)
Theorem word_forward_into_leading_whitespace whitespace w el cur next :
  getCursorIndex w = Ok cur w ->
  activeElement w = Some el ->
  0 <= cur ->
  noWhitespaceFrom whitespace (innerText el) cur ->
  at_index (lines (vim_info w)) (active_line (vim_info w) + 1) = Some next ->
  whitespaceAt whitespace (innerText (element next)) 0 = true ->
  let r := jumpToNextWORD whitespace None None w in
  let activated := final (setActiveLine (active_line (vim_info w) + 1) w) in
  active_line (vim_info (final r)) = active_line (vim_info w) + 1 /\
  landsAt (element next) 1 activated r.
Proof.
  intros Hcur Hel Hpos Hnone Hnext Hws r activated. subst r.
  rewrite (jumpToNextWORD_resolved whitespace None None w el cur Hcur Hel).
  cbv zeta. rewrite (landing_none _ _ _ Hpos Hnone), Z.ltb_irrefl, Hnext.
  rewrite (bind_Ok _ _ _ _ _ (setActiveLine_returns _ w)).
  fold activated. rewrite (test_first _ _ Hws).
  rewrite (jumpToNextWORD_found whitespace (Some (element next)) (Some 0)
             activated (element next) 0 0 eq_refl eq_refl (Z.le_refl 0)).
  - split; [|apply setCursorPosition_landsAt].
    rewrite setCursorPosition_caret. simpl final.
    rewrite withCaret_vim_info. unfold activated.
    now rewrite (setActiveLine_inside _ _ _ Hnext).
  - split; [lia|]. split; [exact Hws|]. intros j Hj. lia.
Qed.

Lemma word_forward_into_leading_whitespace_witness :
  let r := jumpToNextWORD RegExp.space_class None None Sample.two_lines in
  active_line (vim_info (final r)) = 1 /\
  offsetIn Sample.next_line (final r) = Some 1.
Proof.
  destruct (word_forward_into_leading_whitespace RegExp.space_class
              Sample.two_lines Sample.first_line 3 (mkLine 0 Sample.next_line))
    as [Hactive [_ Hoffset]].
  - reflexivity.
  - reflexivity.
  - lia.
  - intros j Hj. unfold whitespaceAt, Js.charAt.
    destruct (Z.ltb_spec j 0); [lia|].
    destruct (Z.to_nat j) as [|[|[|n]]] eqn:Hn; try lia; reflexivity.
  - reflexivity.
  - reflexivity.
  - split; [exact Hactive|]. apply Hoffset.
    + split; [reflexivity | vm_compute; discriminate].
    + vm_compute. split; discriminate.
Defined.

(** C3, refuted as stated: at the end of ["abc"], with ["  next"] as the
    next line, word-forward advances [active_line] to 1 but leaves the
    cursor at offset 1 of the new line, on its second space, and not at
    offset 2. *)
Lemma word_forward_lands_on_whitespace :
  let w := Sample.two_lines in
  let r := jumpToNextWORD RegExp.space_class None None w in
  getCursorIndex w = Ok (Js.length (innerText Sample.first_line)) w /\
  active_line (vim_info w) = 0 /\
  active_line (vim_info (final r)) = 1 /\
  selection (final r) = Some (mkRange (mkRef 2 [0%nat]) 1) /\
  offsetIn Sample.next_line (final r) <> Some 2 /\
  whitespaceAt RegExp.space_class (innerText Sample.next_line) 1 = true.
Proof. vm_compute. repeat split; discriminate. Qed.

(** ** The claims about the character motions *)



(** ** The claims about key handling *)

Section KeyHandling.
Variable whitespace : ascii -> bool.

Lemma preserves_jumpToNextWORD_body {B} (f : World -> B) `{!Framed f}
      self node start_position :
  (forall n p, preserves f (self n p)) ->
  preserves f (jumpToNextWORD_body whitespace self node start_position).
Proof.
  intros Hself. unfold jumpToNextWORD_body, getActiveLine, getLines.
  apply preserves_bind; [apply preserves_gets | intros a].
  apply preserves_bind; [apply preserves_gets | intros ls].
  apply preserves_bind;
    [destruct start_position; [apply preserves_ret
                              | apply preserves_getCursorIndex] | intros cur].
  apply preserves_bind;
    [destruct node; [apply preserves_ret | apply preserves_gets]
    | intros [el|]]; [|apply preserves_throw].
  destruct (_ <? _); [now apply preserves_setCursorPosition|].
  destruct node; [now apply preserves_setCursorPosition|].
  destruct (at_index ls (a + 1)); [|now apply preserves_setCursorPosition].
  apply preserves_bind; [now apply preserves_setActiveLine | intros _].
  destruct (RegExp.test _ _); [apply Hself|].
  now apply preserves_setCursorPosition.
Qed.

Lemma preserves_jumpToNextWORD {B} (f : World -> B) `{!Framed f}
      node start_position :
  preserves f (jumpToNextWORD whitespace node start_position).
Proof.
  unfold jumpToNextWORD.
  apply preserves_jumpToNextWORD_body; [assumption|]. intros n p.
  apply preserves_jumpToNextWORD_body; [assumption|]. intros n' p'.
  apply preserves_throw.
Qed.

Lemma preserves_moveCursorBackwards {B} (f : World -> B) `{!Framed f} :
  preserves f moveCursorBackwards.
Proof.
  unfold moveCursorBackwards.
  apply preserves_bind; [apply preserves_getCursorIndex | intros cur].
  destruct (cur =? 0); [apply preserves_ret|].
  apply preserves_bind; [apply preserves_gets | intros el].
  now apply preserves_setCursorPosition.
Qed.

Lemma preserves_moveCursorForwards {B} (f : World -> B) `{!Framed f} :
  preserves f moveCursorForwards.
Proof.
  unfold moveCursorForwards.
  apply preserves_bind; [apply preserves_getCursorIndex | intros cur].
  apply preserves_bind; [apply preserves_gets | intros [el|]];
    [|apply preserves_throw].
  destruct (_ <=? _); [apply preserves_ret|].
  now apply preserves_setCursorPosition.
Qed.

Lemma preserves_motion {B} (f : World -> B) `{!Framed f} m :
  preserves f (motion whitespace m).
Proof.
  destruct m; simpl.
  - now apply preserves_moveCursorBackwards.
  - now apply preserves_moveCursorForwards.
  - apply preserves_bind; [apply preserves_gets | intros a].
    now apply preserves_setActiveLine.
  - apply preserves_bind; [apply preserves_gets | intros a].
    now apply preserves_setActiveLine.
  - now apply preserves_jumpToNextWORD.
Qed.

Lemma preserves_enterMode {B} (f : World -> B) `{!Framed f} m :
  preserves f (setMode m ;; updateInfoContainer).
Proof.
  intros w. unfold setMode, updateInfoContainer, bind, modify. simpl.
  destruct (vim_mode w); simpl;
    now rewrite ?framed_vim_mode, ?framed_vim_info.
Qed.

(** Once [preventDefault] ran, whatever follows leaves the event
    suppressed. *)
Lemma prevented_then {A} (m : M A) w :
  preserves event m ->
  defaultPrevented (event (final ((preventDefault ;; m) w))) = true.
Proof.
  intros Hm. unfold bind, preventDefault, modify. now rewrite Hm.
Qed.

Lemma dispatchKeydown_handler k w :
  dispatchKeydown whitespace k w =
  match mode (vim_info w) with
  | normal => normalReducer whitespace
  | insert => insertReducer
  end (set_event (mkEvent k false false) w).
Proof. reflexivity. Qed.

(** C10. In normal mode the key handler suppresses the default behaviour
    of every key event, bound to an action or not, also when the action
    throws. *)
Theorem normal_mode_suppresses_every_key k w :
  mode (vim_info w) = normal ->
  defaultPrevented (event (final (dispatchKeydown whitespace k w))) = true.
Proof.
  intros Hnormal. rewrite dispatchKeydown_handler, Hnormal.
  unfold normalReducer. unfold bind at 1, gets at 1. unfold bind at 1, gets at 1.
  change (key (event (set_event (mkEvent k false false) w))) with k.
  destruct (_ || _)%bool;
    [apply prevented_then; now apply preserves_enterMode|].
  destruct (String.eqb k "h");
    [apply prevented_then; now apply preserves_moveCursorBackwards|].
  destruct (String.eqb k "j");
    [apply prevented_then; now apply preserves_setActiveLine|].
  destruct (String.eqb k "k");
    [apply prevented_then; now apply preserves_setActiveLine|].
  destruct (String.eqb k "l");
    [apply prevented_then; now apply preserves_moveCursorForwards|].
  destruct (String.eqb k "W");
    [apply prevented_then; now apply preserves_jumpToNextWORD|].
  reflexivity.
Qed.

End KeyHandling.

Lemma normal_mode_suppresses_every_key_witness :
  defaultPrevented
    (event (final (dispatchKeydown RegExp.space_class "x"
                                   Sample.two_lines))) = true /\
  defaultPrevented
    (event (final (dispatchKeydown RegExp.space_class "W"
                                   Sample.two_lines))) = true.
Proof.
  split; apply normal_mode_suppresses_every_key; reflexivity.
Defined.



(** ** The claims about totality *)

Section Totality.
Variable whitespace : ascii -> bool.

Lemma returns_setCursorPosition el index w :
  returns (setCursorPosition (Some el) index w).
Proof. now rewrite setCursorPosition_caret. Qed.

Lemma returns_jumpToNextWORD_node n p w :
  returns (jumpToNextWORD whitespace (Some n) (Some p) w).
Proof.
  rewrite (jumpToNextWORD_resolved whitespace (Some n) (Some p) w n p
             eq_refl eq_refl).
  cbv zeta. destruct (_ <? _); apply returns_setCursorPosition.
Qed.

Lemma safe_motion m : safe (motion whitespace m).
Proof.
  intros w Hw. destruct (activeElement w) as [el|] eqn:Hel; [|contradiction].
  pose proof (getCursorIndex_offsetIn w el Hel) as Hcur.
  assert (gets activeElement w = Ok (Some el) w) as Hactive.
  { unfold gets. now rewrite Hel. }
  destruct m; simpl.
  - unfold moveCursorBackwards. rewrite (bind_Ok _ _ _ _ _ Hcur).
    destruct (_ =? 0); [exact I|].
    rewrite (bind_Ok _ _ _ _ _ Hactive). apply returns_setCursorPosition.
  - unfold moveCursorForwards.
    rewrite (bind_Ok _ _ _ _ _ Hcur), (bind_Ok _ _ _ _ _ Hactive).
    destruct (_ <=? _); [exact I | apply returns_setCursorPosition].
  - unfold bind, getActiveLine, gets. now rewrite setActiveLine_returns.
  - unfold bind, getActiveLine, gets. now rewrite setActiveLine_returns.
  - rewrite (jumpToNextWORD_resolved whitespace None None w el _ Hcur Hel).
    cbv zeta. destruct (_ <? _); [apply returns_setCursorPosition|].
    destruct (at_index _ _) as [next|]; [|apply returns_setCursorPosition].
    rewrite (bind_Ok _ _ _ _ _ (setActiveLine_returns _ w)).
    destruct (RegExp.test _ _);
      [apply returns_jumpToNextWORD_node | apply returns_setCursorPosition].
Qed.

Lemma setActiveLine_empty idx w :
  lines (vim_info w) = [] -> setActiveLine idx w = Ok tt w.
Proof.
  intros Hempty. unfold setActiveLine, getActiveLine, bind, gets.
  rewrite Hempty. unfold at_index.
  destruct (_ <? 0); [|destruct (Z.to_nat (active_line _))];
    (destruct (_ <? 0); [|destruct (Z.to_nat _)]); reflexivity.
Qed.

End Totality.

Lemma setCursorPosition_ignores_registry el index v w :
  setCursorPosition (Some el) index (set_vim_info v w) =
  Ok tt (set_vim_info v (final (setCursorPosition (Some el) index w))).
Proof.
  rewrite !setCursorPosition_caret. unfold final.
  now destruct (caretNode (rootRef el) (asNode el) index).
Qed.

Lemma moveCursorBackwards_ignores_registry :
  ignoresRegistry moveCursorBackwards.
Proof.
  intros v w.
  assert (getCursorIndex (set_vim_info v w) =
          match getCursorIndex w with
          | Ok cur _ => Ok cur (set_vim_info v w)
          | TypeError _ => TypeError (set_vim_info v w)
          end) as Hread.
  { unfold getCursorIndex, bind, gets, ret, throw.
    destruct w as [info focused [range|] subs clicks shown ev];
      [destruct focused|]; reflexivity. }
  pose proof (getCursorIndex_unchanged w) as Hsame.
  unfold moveCursorBackwards, bind. rewrite Hread.
  destruct (getCursorIndex w) as [cur w0|w0]; simpl in Hsame; subst w0;
    [|reflexivity].
  destruct (cur =? 0); [reflexivity|]. unfold gets.
  change (activeElement (set_vim_info v w)) with (activeElement w).
  destruct (activeElement w) as [el|]; [|reflexivity].
  rewrite setCursorPosition_ignores_registry.
  now rewrite setCursorPosition_caret.
Qed.

Lemma moveCursorForwards_ignores_registry :
  ignoresRegistry moveCursorForwards.
Proof.
  intros v w.
  assert (getCursorIndex (set_vim_info v w) =
          match getCursorIndex w with
          | Ok cur _ => Ok cur (set_vim_info v w)
          | TypeError _ => TypeError (set_vim_info v w)
          end) as Hread.
  { unfold getCursorIndex, bind, gets, ret, throw.
    destruct w as [info focused [range|] subs clicks shown ev];
      [destruct focused|]; reflexivity. }
  pose proof (getCursorIndex_unchanged w) as Hsame.
  unfold moveCursorForwards, bind. rewrite Hread.
  destruct (getCursorIndex w) as [cur w0|w0]; simpl in Hsame; subst w0;
    [|reflexivity].
  unfold gets.
  change (activeElement (set_vim_info v w)) with (activeElement w).
  destruct (activeElement w) as [el|]; [|reflexivity].
  destruct (_ <=? _); [reflexivity|].
  rewrite setCursorPosition_ignores_registry.
  now rewrite setCursorPosition_caret.
Qed.

Lemma motions_throw_without_focus whitespace w :
  activeElement w = None ->
  ~ returns (motion whitespace characterRight w) /\
  ~ returns (motion whitespace wordForward w).
Proof.
  intros Hnull.
  destruct w as [info focused sel subs clicks shown ev]. simpl in Hnull.
  subst focused. split.
  - simpl motion.
    unfold moveCursorForwards, getCursorIndex, bind, gets, ret, throw.
    destruct sel; intros [].
  - simpl motion. rewrite jumpToNextWORD_unfold.
    unfold jumpToNextWORD_body, getActiveLine, getLines, getCursorIndex,
      bind, gets, ret, throw.
    destruct sel; intros [].
Qed.

(** C7 (as the code has it). With no line registered, line-up and
    line-down leave the world unchanged.  Character-left and
    character-right never consult the registry: whatever [vim_info] holds
    they do the same to the focused element.  Word-forward reads the
    registry only to look for a next line: with no line registered it sets
    the cursor in the focused element, one past the whitespace its scan
    finds or at the end of the text.  Whenever the document has a focused
    element, each of the five motions returns without throwing; with none,
    character-right and word-forward throw.  [getCursorIndex] reads a
    missing selection as offset 0. *)
Theorem motions_are_total whitespace w :
  (lines (vim_info w) = [] ->
   motion whitespace lineUp w = Ok tt w /\
   motion whitespace lineDown w = Ok tt w) /\
  (ignoresRegistry (motion whitespace characterLeft) /\
   ignoresRegistry (motion whitespace characterRight)) /\
  (forall el cur,
      lines (vim_info w) = [] ->
      activeElement w = Some el ->
      getCursorIndex w = Ok cur w ->
      let text := innerText el in
      let i := nextWhiteSpaceIndex whitespace text cur in
      motion whitespace wordForward w =
      setCursorPosition (Some el) (if i <? Js.length text then i + 1 else i) w) /\
  (activeElement w <> None -> forall m, returns (motion whitespace m w)) /\
  (activeElement w = None ->
   ~ returns (motion whitespace characterRight w) /\
   ~ returns (motion whitespace wordForward w)) /\
  (selection w = None -> getCursorIndex w = Ok 0 w).
Proof.
  split; [|split; [|split; [|split; [|split]]]].
  - intros Hempty. simpl. unfold bind, getActiveLine, gets.
    now rewrite !setActiveLine_empty.
  - split; [apply moveCursorBackwards_ignores_registry
           | apply moveCursorForwards_ignores_registry].
  - intros el cur Hempty Hel Hcur. simpl motion.
    rewrite (jumpToNextWORD_resolved whitespace None None w el cur Hcur Hel).
    cbv zeta. rewrite Hempty.
    assert (at_index (@nil TrackedLine) (active_line (vim_info w) + 1) = None)
      as ->.
    { unfold at_index. destruct (_ <? 0); [reflexivity|].
      now destruct (Z.to_nat _). }
    now destruct (_ <? _).
  - intros Hfocus m. now apply safe_motion.
  - apply motions_throw_without_focus.
  - intros Hnone. unfold getCursorIndex, bind, gets. now rewrite Hnone.
Qed.

Lemma motions_are_total_witness :
  let w := final (initialize (page Sample.hello)) in
  let unfocused := set_activeElement None w in
  (motion RegExp.space_class lineUp w = Ok tt w /\
   motion RegExp.space_class lineDown w = Ok tt w) /\
  motion RegExp.space_class wordForward w =
    setCursorPosition (Some Sample.hello) 5 w /\
  returns (motion RegExp.space_class wordForward w) /\
  ~ returns (motion RegExp.space_class wordForward unfocused) /\
  getCursorIndex w = Ok 0 w.
Proof.
  intros w unfocused.
  destruct (motions_are_total RegExp.space_class w)
    as (Hlines & _ & Hword & Hreturns & _ & Hmissing).
  destruct (motions_are_total RegExp.space_class unfocused)
    as (_ & _ & _ & _ & Hthrows & _).
  split; [|split; [|split; [|split]]].
  - apply Hlines. reflexivity.
  - apply (Hword Sample.hello 0); reflexivity.
  - apply Hreturns. discriminate.
  - apply Hthrows. reflexivity.
  - apply Hmissing. reflexivity.
Defined.

(** C7, refuted as stated: with no line registered and the caret at
    offset 1 of the focused [body], character-left moves the caret to
    offset 0, and word-forward moves it to offset 2; with no line
    registered and nothing focused, character-right throws; and a
    selection anchored outside the focused surface ["hello"] is read as
    offset 5, not 0. *)
Lemma motion_without_lines_moves_caret :
  (let w := Sample.caretAt Sample.body 1 in
   let w' := final (motion RegExp.space_class characterLeft w) in
   lines (vim_info w) = [] /\
   offsetIn Sample.body w = Some 1 /\
   offsetIn Sample.body w' = Some 0 /\
   w' <> w /\
   offsetIn Sample.body
     (final (motion RegExp.space_class wordForward w)) = Some 2) /\
  (let w := set_activeElement None (final (initialize (page Sample.body))) in
   lines (vim_info w) = [] /\
   motion RegExp.space_class characterRight w = TypeError w /\
   ~ returns (motion RegExp.space_class characterRight w)) /\
  (let w := Sample.caretElsewhere in
   selection w = Some (mkRange (mkRef 0 [0%nat]) 1) /\
   activeElement w = Some Sample.hello /\
   getCursorIndex w = Ok 5 w).
Proof.
  split; [|split].
  - cbv zeta. split; [reflexivity|]. split; [reflexivity|].
    split; [reflexivity|]. split; [|reflexivity].
    intros Heq. apply (f_equal (offsetIn Sample.body)) in Heq.
    vm_compute in Heq. discriminate.
  - cbv zeta. split; [reflexivity|]. split; [reflexivity|]. intros [].
  - repeat split; reflexivity.
Qed.

(** ** The claims about subscriptions *)

Lemma In_unsubscribe u v subscribers :
  In u (unsubscribe v subscribers) <-> In u subscribers /\ u <> v.
Proof.
  unfold unsubscribe. rewrite filter_In.
  destruct (Nat.eqb_spec u v); simpl; intuition congruence.
Qed.

Lemma In_subscribe u v subscribers :
  In u (subscribe v subscribers) <-> u = v \/ In u subscribers.
Proof.
  unfold subscribe. destruct (existsb (Nat.eqb v) subscribers) eqn:Hex.
  - apply existsb_exists in Hex as (x & Hx & Heq).
    apply Nat.eqb_eq in Heq. subst x. intuition congruence.
  - rewrite in_app_iff. simpl. intuition congruence.
Qed.

Lemma subscribed_In w l :
  subscribed w l = true <-> In (uid (element l)) (keydown w).
Proof.
  unfold subscribed. rewrite existsb_exists. split.
  - intros (x & Hx & Heq). apply Nat.eqb_eq in Heq. now subst x.
  - intros Hin. exists (uid (element l)). now rewrite Nat.eqb_refl.
Qed.

(** Among lines with pairwise distinct surfaces, a test that singles out
    the surface of the line at one index keeps that line alone. *)
Lemma filter_single (p : TrackedLine -> bool) : forall ls n l,
  NoDup (map (fun x => uid (element x)) ls) ->
  nth_error ls n = Some l ->
  (forall x, In x ls -> (p x = true <-> uid (element x) = uid (element l))) ->
  filter p ls = [l].
Proof.
  induction ls as [|x ls IH]; intros n l Hnodup Hn Hp.
  - destruct n; discriminate.
  - simpl in Hnodup. inversion Hnodup as [|? ? Hfresh Hrest]; subst.
    assert (forall y, In y ls -> uid (element y) <> uid (element x)) as Hother.
    { intros y Hy Heq. apply Hfresh. rewrite <- Heq.
      now apply (in_map (fun z => uid (element z))). }
    destruct n as [|n]; simpl in Hn.
    + injection Hn as ->. simpl.
      destruct (p l) eqn:Hpl.
      * f_equal.
        assert (forall y, In y ls -> p y = false) as Hfalse.
        { intros y Hy. destruct (p y) eqn:Hpy; [|reflexivity].
          apply Hp in Hpy; [|now right]. now apply Hother in Hy. }
        clear -Hfalse. induction ls as [|y ls IH]; [reflexivity|].
        simpl. rewrite (Hfalse y) by now left.
        apply IH. intros z Hz. apply Hfalse. now right.
      * assert (p l = true) as Habs by (apply Hp; [now left | reflexivity]).
        congruence.
    + simpl. destruct (p x) eqn:Hpx.
      * apply Hp in Hpx; [|now left]. apply nth_error_In in Hn.
        symmetry in Hpx. now apply Hother in Hn.
      * apply (IH n l Hrest Hn). intros y Hy. apply Hp. now right.
Qed.

Lemma at_index_nil_or {A} (ls : list A) idx :
  ls = [] \/
  exists l, at_index ls (clampIndex (Z.of_nat (List.length ls)) idx) = Some l.
Proof.
  destruct ls as [|x ls]; [now left | right].
  apply at_index_inside, clampIndex_range. simpl. lia.
Qed.

(** The second of two calls in a row: what it finds and what it leaves. *)
Lemma setActiveLine_again idx w lt :
  let ls := lines (vim_info w) in
  let i := clampIndex (Z.of_nat (List.length ls)) idx in
  let once := final (setActiveLine idx w) in
  let twice := final (setActiveLine idx once) in
  at_index ls i = Some lt ->
  vim_info twice = vim_info once /\
  In (uid (element lt)) (keydown once) /\
  keydown twice =
    subscribe (uid (element lt)) (unsubscribe (uid (element lt)) (keydown once)).
Proof.
  intros ls i once twice Htarget.
  assert (vim_info once = set_active_line i (vim_info w)) as Hinfo.
  { unfold once. rewrite setActiveLine_vim_info. fold ls i. now rewrite Htarget. }
  assert (lines (vim_info once) = ls) as Hlines by now rewrite Hinfo.
  assert (active_line (vim_info once) = i) as Hactive by now rewrite Hinfo.
  split; [|split].
  - unfold twice. rewrite setActiveLine_vim_info, Hlines. fold i.
    rewrite Htarget, Hinfo. reflexivity.
  - unfold once. rewrite setActiveLine_keydown. fold ls i. rewrite Htarget.
    apply In_subscribe. now left.
  - unfold twice. rewrite setActiveLine_keydown, Hlines, Hactive. fold i.
    now rewrite Htarget.
Qed.

(** X21. [setActiveLine] is idempotent on the registry and on the
    subscriptions: a second call with the same index leaves [vim_info]
    (active line, lines, mode) and the set of subscribed surfaces as the
    first call left them.  On a non-empty registry of pairwise distinct
    surfaces in which no surface but the active line's was subscribed
    beforehand, exactly the line at the clamped index is subscribed
    afterwards. *)
Theorem setActiveLine_idempotent idx w :
  let ls := lines (vim_info w) in
  let once := final (setActiveLine idx w) in
  let twice := final ((setActiveLine idx ;; setActiveLine idx) w) in
  vim_info twice = vim_info once /\
  (forall u, In u (keydown twice) <-> In u (keydown once)) /\
  (ls <> [] ->
   NoDup (map (fun l => uid (element l)) ls) ->
   (forall u, In u (keydown w) ->
      exists l, at_index ls (active_line (vim_info w)) = Some l /\
                u = uid (element l)) ->
   exists l,
     at_index ls (clampIndex (Z.of_nat (List.length ls)) idx) = Some l /\
     subscribedLines twice = [l]).
Proof.
  intros ls once twice.
  assert (twice = final (setActiveLine idx once)) as Htwice.
  { unfold twice. now rewrite (bind_Ok _ _ _ _ _ (setActiveLine_returns idx w)). }
  clearbody twice. subst twice.
  destruct (at_index_nil_or ls idx) as [Hempty|[lt Htarget]].
  - assert (once = w) as Honce.
    { unfold once. now rewrite (setActiveLine_empty idx w Hempty). }
    rewrite Honce, (setActiveLine_empty idx w Hempty). simpl final.
    split; [reflexivity|]. split; [tauto | contradiction].
  - destruct (setActiveLine_again idx w lt Htarget) as (Hinfo & Hin & Hkeys).
    fold once in Hinfo, Hin, Hkeys.
    assert (forall u, In u (keydown (final (setActiveLine idx once))) <->
                      In u (keydown once)) as Hsame.
    { intros u. rewrite Hkeys, In_subscribe, In_unsubscribe.
      destruct (Nat.eq_dec u (uid (element lt))) as [->|Hu]; tauto. }
    split; [exact Hinfo|]. split; [exact Hsame|].
    intros _ Hnodup Hpaired. exists lt. split; [exact Htarget|].
    assert (forall u, In u (keydown once) <-> u = uid (element lt)) as Honly.
    { intros u. unfold once. rewrite setActiveLine_keydown. fold ls.
      rewrite Htarget, In_subscribe.
      split; [intros [Hu|Hu]; [exact Hu|] | tauto].
      exfalso. destruct (at_index ls (active_line (vim_info w))) as [la|] eqn:Hla.
      - apply In_unsubscribe in Hu as [Hu Hneq].
        destruct (Hpaired u Hu) as (l & Hl & ->). congruence.
      - destruct (Hpaired u Hu) as (l & Hl & _). discriminate. }
    unfold subscribedLines.
    rewrite setActiveLine_lines. unfold once at 2. rewrite setActiveLine_lines.
    fold ls. unfold at_index in Htarget.
    destruct (_ <? 0); [discriminate|].
    apply (filter_single _ ls _ lt Hnodup Htarget).
    intros x _. now rewrite subscribed_In, Hsame, Honly.
Qed.

Lemma setActiveLine_idempotent_witness :
  let w := final ((initialize ;; refresh [Sample.first_line; Sample.next_line])
                    (page Sample.body)) in
  vim_info (final ((setActiveLine 7 ;; setActiveLine 7) w)) =
  vim_info (final (setActiveLine 7 w)) /\
  subscribedLines (final ((setActiveLine 7 ;; setActiveLine 7) w)) =
  [mkLine 0 Sample.next_line].
Proof.
  intros w.
  destruct (setActiveLine_idempotent 7 w) as (Hsame & _ & Hone).
  split; [exact Hsame|].
  destruct Hone as (l & Hl & Hsubscribed).
  - vm_compute. discriminate.
  - vm_compute. repeat constructor; simpl; intuition discriminate.
  - intros u Hu. vm_compute in Hu. destruct Hu as [<-|[]].
    exists (mkLine 0 Sample.first_line). split; reflexivity.
  - vm_compute in Hl. injection Hl as <-. exact Hsubscribed.
Defined.

(** C9. After a refresh has left a subscription dangling, two calls of
    [setActiveLine] in a row leave two lines subscribed: in the world
    reached by registering a line and refreshing with a block inserted
    above it, [setActiveLine 0] twice produces the same [vim_info] as once,
    but the lines on surfaces 3 and 1 both hold a keydown subscription,
    since [setActiveLine] only ever removes the listener of the line at
    the active index. *)
Theorem setActiveLine_twice_after_refresh :
  let w :=
    final ((initialize ;; refresh [Sample.first_line] ;;
            refresh [Sample.added_line; Sample.first_line])
             (page Sample.body)) in
  let once := final (setActiveLine 0 w) in
  let twice := final ((setActiveLine 0 ;; setActiveLine 0) w) in
  Reachable RegExp.space_class w /\
  vim_info twice = vim_info once /\
  keydown twice = [1%nat; 3%nat] /\
  subscribedLines twice =
    [mkLine 0 Sample.added_line; mkLine 0 Sample.first_line] /\
  List.length (subscribedLines twice) = 2%nat.
Proof.
  split; [|vm_compute; repeat split; reflexivity].
  exact (reach_refresh RegExp.space_class _
           [Sample.added_line; Sample.first_line]
           (reach_refresh RegExp.space_class _ [Sample.first_line]
              (reach_start RegExp.space_class Sample.body))).
Qed.

(** C2. A full-registry refresh leaves a subscription dangling: a line is
    registered and subscribed, the host inserts a block above it and the
    registry is refreshed; [setLines] has replaced the lines before
    [setActiveLine] looks for the previous line, so the listener is removed
    from the new line at index 0, which has none, and in the world reached
    both tracked lines are subscribed. *)
Theorem refresh_leaves_two_subscriptions :
  let before :=
    final ((initialize ;; refresh [Sample.first_line]) (page Sample.body)) in
  let after := final (refresh [Sample.added_line; Sample.first_line] before) in
  Reachable RegExp.space_class after /\
  subscribedLines before = [mkLine 0 Sample.first_line] /\
  active_line (vim_info after) = 0 /\
  subscribedLines after =
    [mkLine 0 Sample.added_line; mkLine 0 Sample.first_line] /\
  List.length (subscribedLines after) = 2%nat.
Proof.
  split; [|vm_compute; repeat split; reflexivity].
  apply reach_refresh.
  apply (reach_refresh RegExp.space_class _ [Sample.first_line]).
  apply reach_start.
Qed.

(** * Further properties of the cursor position model *)

Lemma list_nat_eqb_refl p : list_nat_eqb p p = true.
Proof. induction p as [|x p IH]; simpl; [reflexivity|]. now rewrite Nat.eqb_refl. Qed.

Lemma list_nat_eqb_eq : forall p q, list_nat_eqb p q = true -> p = q.
Proof.
  induction p as [|x p IH]; intros [|y q] H; simpl in H; try discriminate.
  - reflexivity.
  - apply andb_prop in H as [Hxy Hpq]. apply Nat.eqb_eq in Hxy.
    f_equal; [exact Hxy | now apply IH].
Qed.

Lemma isSameNode_eq a b : isSameNode a b = true -> a = b.
Proof.
  destruct a as [oa pa], b as [ob pb]. unfold isSameNode. simpl.
  intros H. apply andb_prop in H as [Ho Hp].
  apply Nat.eqb_eq in Ho. apply list_nat_eqb_eq in Hp. now subst.
Qed.

Lemma isSameNode_refl a : isSameNode a a = true.
Proof. unfold isSameNode. now rewrite Nat.eqb_refl, list_nat_eqb_refl. Qed.

(** Where the loop of [setCursorPosition] puts the caret: in a text node
    below one of the children it walks, at an offset inside that node. *)
Lemma caretChildNodes_valid : forall nodes,
  Forall (fun c => forall self index r,
            caretNode self c index = Some r ->
            exists q data,
              startContainer r = mkRef (owner self) (path self ++ q) /\
              nodeAt c q = Some (Text data) /\
              0 <= startOffset r <= Js.length data) nodes ->
  forall self k i index r,
    caretChildNodes caretNode self k nodes i index = Some r ->
    exists j c q data,
      nth_error nodes j = Some c /\
      startContainer r = mkRef (owner self) (path self ++ (k + j)%nat :: q) /\
      nodeAt c q = Some (Text data) /\
      0 <= startOffset r <= Js.length data.
Proof.
  induction 1 as [|c rest Hc _ IH]; intros self k i index r Hcaret.
  - discriminate.
  - simpl in Hcaret.
    destruct (Z.leb_spec i index) as [Hlo|Hlo];
      [destruct (Z.leb_spec index (i + textLength c)) as [Hhi|Hhi]|];
      cbn [andb] in Hcaret.
    + destruct c as [data|cs].
      * injection Hcaret as <-. exists 0%nat, (Text data), [], data.
        rewrite Nat.add_0_r. repeat split; simpl; try lia.
        change (textLength (Text data)) with (Js.length data) in Hhi. lia.
      * destruct (Hc _ _ _ Hcaret) as (q & data & Hpath & Hnode & Hoff).
        exists 0%nat, (Element cs), q, data. rewrite Nat.add_0_r.
        repeat split; try assumption; try lia.
        rewrite Hpath. unfold childRef. simpl. now rewrite <- app_assoc.
    + destruct (IH _ _ _ _ _ Hcaret) as (j & c' & q & data & Hj & Hpath & Hrest).
      exists (S j), c', q, data. split; [exact Hj|].
      split; [|exact Hrest]. now rewrite Nat.add_succ_r.
    + destruct (IH _ _ _ _ _ Hcaret) as (j & c' & q & data & Hj & Hpath & Hrest).
      exists (S j), c', q, data. split; [exact Hj|].
      split; [|exact Hrest]. now rewrite Nat.add_succ_r.
Qed.

Lemma caretNode_valid : forall n self index r,
  caretNode self n index = Some r ->
  exists q data,
    startContainer r = mkRef (owner self) (path self ++ q) /\
    nodeAt n q = Some (Text data) /\
    0 <= startOffset r <= Js.length data.
Proof.
  intros n. pattern n. apply Node_induction; clear n.
  - intros data self index r H. discriminate.
  - intros cs IH self index r H. simpl in H.
    destruct (caretChildNodes_valid cs IH _ _ _ _ _ H)
      as (j & c & q & data & Hj & Hpath & Hnode & Hoff).
    exists (j :: q), data. simpl. rewrite Hj. now repeat split.
Qed.

(** X1. On an element, [setCursorPosition] returns without throwing and
    never touches the engine's own state: [vim_info], the keydown
    subscriptions and the indicator are as before.  The selection is left
    as it was, or set to an anchor in a text node of that element at an
    offset inside the node (so that [range.setStart] is always given a
    valid boundary point). *)
Theorem setCursorPosition_places_valid_caret el index w :
  let r := setCursorPosition (Some el) index w in
  returns r /\
  vim_info (final r) = vim_info w /\
  keydown (final r) = keydown w /\
  vim_mode (final r) = vim_mode w /\
  (selection (final r) = selection w \/
   exists range data,
     selection (final r) = Some range /\ anchoredIn el range data).
Proof.
  cbv zeta. rewrite setCursorPosition_caret. unfold final, returns.
  destruct (caretNode (rootRef el) (asNode el) index) as [range|] eqn:Hcaret.
  - split; [exact I|]. split; [reflexivity|]. split; [reflexivity|].
    split; [reflexivity|]. right.
    destruct (caretNode_valid _ _ _ _ Hcaret)
      as (q & data & Hpath & Hnode & Hoff).
    exists range, data. split; [reflexivity|]. unfold anchoredIn.
    rewrite Hpath. simpl. now repeat split.
  - split; [exact I|]. split; [reflexivity|]. split; [reflexivity|].
    split; [reflexivity|]. now left.
Qed.

Lemma caretChildNodes_before rec self index : forall nodes k i,
  index < i -> caretChildNodes rec self k nodes i index = None.
Proof.
  induction nodes as [|node rest IH]; intros k i Hlt; simpl.
  - reflexivity.
  - destruct (Z.leb_spec i index); [lia|]. cbn [andb].
    apply IH. pose proof (textLength_nonneg node). lia.
Qed.

(** X2. A negative offset is ignored: [setCursorPosition] returns and
    leaves the world as it was. *)
Theorem setCursorPosition_negative_is_noop el index w :
  index < 0 -> setCursorPosition (Some el) index w = Ok tt w.
Proof.
  intros Hneg. rewrite setCursorPosition_caret. unfold asNode. simpl caretNode.
  now rewrite caretChildNodes_before.
Qed.

Lemma setCursorPosition_negative_witness :
  setCursorPosition (Some Sample.hello) (-1) (Sample.caretAt Sample.hello 2) =
  Ok tt (Sample.caretAt Sample.hello 2).
Proof. apply setCursorPosition_negative_is_noop. lia. Defined.

(** A subtree none of whose text nodes is the anchor is counted whole. *)
Lemma checkChildNodes_miss range : forall nodes,
  Forall (fun c => forall self i,
            (forall q data, nodeAt c q = Some (Text data) ->
               isSameNode (mkRef (owner self) (path self ++ q))
                          (startContainer range) = false) ->
            checkElementNode range self c i =
            (false, match c with
                    | Text _ => i
                    | Element _ => i + textLength c
                    end))
         nodes ->
  forall self k i,
    (forall j c q data,
        nth_error nodes j = Some c -> nodeAt c q = Some (Text data) ->
        isSameNode (mkRef (owner self) (path self ++ (k + j)%nat :: q))
                   (startContainer range) = false) ->
    checkChildNodes range (checkElementNode range) self k nodes i =
    (false, i + textLengths nodes).
Proof.
  induction 1 as [|c rest Hc _ IH]; intros self k i Hmiss; simpl.
  - f_equal. lia.
  - assert (forall j c' q data,
               nth_error rest j = Some c' -> nodeAt c' q = Some (Text data) ->
               isSameNode (mkRef (owner self) (path self ++ (S k + j)%nat :: q))
                          (startContainer range) = false) as Hrest.
    { intros j c' q data Hj Hq. specialize (Hmiss (S j) c' q data Hj Hq).
      now rewrite Nat.add_succ_r in Hmiss. }
    assert (forall q data, nodeAt c q = Some (Text data) ->
               isSameNode (mkRef (owner self) (path self ++ k :: q))
                          (startContainer range) = false) as Hhead.
    { intros q data Hq. specialize (Hmiss 0%nat c q data eq_refl Hq).
      now rewrite Nat.add_0_r in Hmiss. }
    destruct c as [data|cs].
    + change (childRef self k) with (mkRef (owner self) (path self ++ [k])).
      rewrite (Hhead [] data eq_refl), (IH _ _ _ Hrest).
      change (textLength (Text data)) with (Js.length data). f_equal. lia.
    + rewrite Hc.
      * rewrite (IH _ _ _ Hrest). f_equal. lia.
      * intros q data Hq. unfold childRef. simpl. rewrite <- app_assoc.
        exact (Hhead q data Hq).
Qed.

Lemma checkElementNode_miss range : forall n self i,
  (forall q data, nodeAt n q = Some (Text data) ->
     isSameNode (mkRef (owner self) (path self ++ q))
                (startContainer range) = false) ->
  checkElementNode range self n i =
  (false, match n with
          | Text _ => i
          | Element _ => i + textLength n
          end).
Proof.
  intros n. pattern n. apply Node_induction; clear n.
  - intros data self i _. reflexivity.
  - intros cs IH self i Hmiss. simpl checkElementNode.
    rewrite textLength_Element. apply (checkChildNodes_miss range cs IH).
    intros j c q data Hj Hq. apply (Hmiss (j :: q) data). simpl. now rewrite Hj.
Qed.

Lemma getCursorIndex_selected w el range :
  activeElement w = Some el -> selection w = Some range ->
  getCursorIndex w =
  Ok (snd (checkElementNode range (rootRef el) (asNode el) 0)) w.
Proof.
  intros Hel Hsel. unfold getCursorIndex, bind, gets, ret.
  now rewrite Hsel, Hel.
Qed.

(** X3. A selection whose anchor is no text node of the focused surface
    (it lies in another surface, or on an element) is read by
    [getCursorIndex] as the length of the surface's text. *)
Theorem getCursorIndex_of_foreign_selection w el range :
  activeElement w = Some el -> selection w = Some range ->
  notInText el range ->
  getCursorIndex w = Ok (Js.length (elementText el)) w.
Proof.
  intros Hel Hsel Hforeign. rewrite (getCursorIndex_selected w el range Hel Hsel).
  rewrite checkElementNode_miss; [reflexivity|].
  intros q data Hq. destruct (isSameNode _ _) eqn:Hsame; [|reflexivity].
  apply isSameNode_eq in Hsame. exfalso.
  destruct Hforeign as [Howner|Hnode].
  - apply Howner. now rewrite <- Hsame.
  - apply (Hnode data). now rewrite <- Hsame.
Qed.

Lemma getCursorIndex_of_foreign_selection_witness :
  getCursorIndex Sample.caretElsewhere =
  Ok (Js.length (elementText Sample.hello)) Sample.caretElsewhere.
Proof.
  apply (getCursorIndex_of_foreign_selection Sample.caretElsewhere Sample.hello
           (mkRange (mkRef 0 [0%nat]) 1)); [reflexivity | reflexivity |].
  left. simpl. discriminate.
Defined.

(** The counter of [checkElementNode] grows by at most the text it walks,
    when the anchor's offset lies inside its text node. *)
Lemma checkChildNodes_bounds range : forall nodes,
  Forall (fun c => forall self i,
            (forall q data, nodeAt c q = Some (Text data) ->
               isSameNode (mkRef (owner self) (path self ++ q))
                          (startContainer range) = true ->
               0 <= startOffset range <= Js.length data) ->
            i <= snd (checkElementNode range self c i) <=
            match c with
            | Text _ => i
            | Element _ => i + textLength c
            end) nodes ->
  forall self k i,
    (forall j c q data,
        nth_error nodes j = Some c -> nodeAt c q = Some (Text data) ->
        isSameNode (mkRef (owner self) (path self ++ (k + j)%nat :: q))
                   (startContainer range) = true ->
        0 <= startOffset range <= Js.length data) ->
    i <= snd (checkChildNodes range (checkElementNode range) self k nodes i)
      <= i + textLengths nodes.
Proof.
  induction 1 as [|c rest Hc _ IH]; intros self k i Hwf; simpl.
  - lia.
  - pose proof (textLengths_nonneg rest) as Hnonneg.
    assert (forall j c' q data,
               nth_error rest j = Some c' -> nodeAt c' q = Some (Text data) ->
               isSameNode (mkRef (owner self) (path self ++ (S k + j)%nat :: q))
                          (startContainer range) = true ->
               0 <= startOffset range <= Js.length data) as Hrest.
    { intros j c' q data Hj Hq. specialize (Hwf (S j) c' q data Hj Hq).
      now rewrite Nat.add_succ_r in Hwf. }
    assert (forall q data, nodeAt c q = Some (Text data) ->
               isSameNode (mkRef (owner self) (path self ++ k :: q))
                          (startContainer range) = true ->
               0 <= startOffset range <= Js.length data) as Hhead.
    { intros q data Hq. specialize (Hwf 0%nat c q data eq_refl Hq).
      now rewrite Nat.add_0_r in Hwf. }
    destruct c as [data|cs].
    + change (textLength (Text data)) with (Js.length data).
      destruct (isSameNode (childRef self k) (startContainer range)) eqn:Hsame.
      * pose proof (Hhead [] data eq_refl Hsame). simpl. lia.
      * specialize (IH self (S k) (i + Js.length data) Hrest).
        pose proof (length_nonneg data). lia.
    + assert (i <= snd (checkElementNode range (childRef self k) (Element cs) i)
                <= i + textLength (Element cs)) as Hsub.
      { apply Hc. intros q data Hq. unfold childRef. simpl.
        rewrite <- app_assoc. exact (Hhead q data Hq). }
      destruct (checkElementNode range (childRef self k) (Element cs) i)
        as [found i'] eqn:Hcall.
      simpl in Hsub. destruct found; simpl.
      * lia.
      * specialize (IH self (S k) i' Hrest). lia.
Qed.

Lemma checkElementNode_bounds range : forall n self i,
  (forall q data, nodeAt n q = Some (Text data) ->
     isSameNode (mkRef (owner self) (path self ++ q))
                (startContainer range) = true ->
     0 <= startOffset range <= Js.length data) ->
  i <= snd (checkElementNode range self n i) <=
  match n with
  | Text _ => i
  | Element _ => i + textLength n
  end.
Proof.
  intros n. pattern n. apply Node_induction; clear n.
  - intros data self i _. simpl. lia.
  - intros cs IH self i Hwf. simpl checkElementNode.
    rewrite textLength_Element. apply (checkChildNodes_bounds range cs IH).
    intros j c q data Hj Hq. apply (Hwf (j :: q) data). simpl. now rewrite Hj.
Qed.

(** X4. Whatever the content tree, [getCursorIndex] returns an offset
    between 0 and the length of the focused surface's text, when the
    selection is missing or anchored as the DOM keeps it. *)
Theorem getCursorIndex_within_text w el cur :
  activeElement w = Some el ->
  (forall range, selection w = Some range -> wellAnchored el range) ->
  getCursorIndex w = Ok cur w ->
  0 <= cur <= Js.length (elementText el).
Proof.
  intros Hel Hwf Hcur. destruct (selection w) as [range|] eqn:Hsel.
  - rewrite (getCursorIndex_selected w el range Hel Hsel) in Hcur.
    injection Hcur as <-.
    apply (checkElementNode_bounds range (asNode el) (rootRef el) 0).
    intros q data Hq Hsame. apply isSameNode_eq in Hsame.
    apply (Hwf range eq_refl); now rewrite <- Hsame.
  - unfold getCursorIndex, bind, gets, ret in Hcur. rewrite Hsel in Hcur.
    injection Hcur as <-. pose proof (length_nonneg (elementText el)). lia.
Qed.

Lemma getCursorIndex_within_text_witness :
  0 <= 3 <= Js.length (elementText Sample.nested).
Proof.
  apply (getCursorIndex_within_text
           (final (setCursorPosition (Some Sample.nested) 1
                                     (page Sample.nested)))
           Sample.nested 3).
  - reflexivity.
  - intros range Hrange. injection Hrange as <-.
    intros _ data Hdata. injection Hdata as <-. vm_compute.
    split; discriminate.
  - reflexivity.
Defined.

Lemma isSameNode_diverge o p k a j b :
  k <> j ->
  isSameNode (mkRef o (p ++ k :: a)) (mkRef o (p ++ j :: b)) = false.
Proof.
  intros Hkj. unfold isSameNode. simpl.
  rewrite list_nat_eqb_diverge by exact Hkj. apply andb_false_r.
Qed.

(** The loop of [checkElementNode] over children the anchor is not below:
    they are counted whole. *)
Lemma checkChildNodes_skip range self tail : forall pre k i,
  startContainer range =
    mkRef (owner self) (path self ++ (k + List.length pre)%nat :: tail) ->
  forall rest,
    checkChildNodes range (checkElementNode range) self k (pre ++ rest) i =
    checkChildNodes range (checkElementNode range) self
                    (k + List.length pre) rest (i + textLengths pre).
Proof.
  induction pre as [|c pre IH]; intros k i Hanchor rest.
  - simpl. now rewrite Nat.add_0_r, Z.add_0_r.
  - simpl List.length in *. rewrite Nat.add_succ_r in *.
    simpl app. simpl checkChildNodes. destruct c as [data|cs].
    + change (childRef self k) with (mkRef (owner self) (path self ++ [k])).
      rewrite Hanchor, isSameNode_diverge by lia.
      rewrite (IH (S k) _ Hanchor). simpl textLengths.
      change (textLength (Text data)) with (Js.length data).
      f_equal. lia.
    + rewrite checkElementNode_miss.
      * rewrite (IH (S k) _ Hanchor). simpl textLengths. f_equal. lia.
      * intros q data _. rewrite Hanchor. unfold childRef. simpl.
        rewrite <- app_assoc. apply isSameNode_diverge. lia.
Qed.

Lemma nth_error_pre {A} (l : list A) j x :
  nth_error l j = Some x ->
  exists post,
    l = (firstn j l ++ x :: post)%list /\ List.length (firstn j l) = j.
Proof.
  intros Hj. destruct (nth_error_split l j Hj) as (pre & post & Hl & Hlen).
  exists post. subst j. rewrite Hl at 2 3.
  rewrite firstn_app, Nat.sub_diag, firstn_all. simpl.
  rewrite app_nil_r. split; [exact Hl | reflexivity].
Qed.

(** Reading an anchor that is a child text node of the element walked. *)
Lemma checkChildNodes_at_text range self cs j data :
  nth_error cs j = Some (Text data) ->
  startContainer range = mkRef (owner self) (path self ++ [j]) ->
  forall i,
    checkChildNodes range (checkElementNode range) self 0 cs i =
    (true, i + textLengths (firstn j cs) + startOffset range).
Proof.
  intros Hj Hanchor i.
  destruct (nth_error_pre cs j _ Hj) as (post & Hcs & Hlen).
  rewrite Hcs at 1.
  rewrite (checkChildNodes_skip range self [] (firstn j cs) 0 i);
    [|now rewrite Hlen].
  rewrite Hlen. simpl.
  change (childRef self j) with (mkRef (owner self) (path self ++ [j])).
  now rewrite <- Hanchor, isSameNode_refl.
Qed.

(** X5. Whatever else the surface contains, a selection anchored in a text
    node that is a child of the focused surface, or a child of one of its
    child elements, is read by [getCursorIndex] as the length of the text
    before that node in document order plus the offset in the node. *)
Theorem getCursorIndex_of_shallow_anchor w el range data :
  activeElement w = Some el -> selection w = Some range ->
  owner (startContainer range) = uid el ->
  nodeAt (asNode el) (path (startContainer range)) = Some (Text data) ->
  (List.length (path (startContainer range)) <= 2)%nat ->
  getCursorIndex w =
  Ok (textBefore (asNode el) (path (startContainer range)) + startOffset range)
     w.
Proof.
  intros Hel Hsel Howner Hnode Hdepth.
  rewrite (getCursorIndex_selected w el range Hel Hsel). f_equal.
  destruct range as [[o p] off]. simpl in *. subst o.
  unfold asNode. simpl checkElementNode.
  destruct p as [|j [|m [|x p]]]; simpl in Hdepth; try lia.
  - discriminate.
  - simpl in Hnode. destruct (nth_error (childNodes el) j) as [c|] eqn:Hj;
      [|discriminate]. injection Hnode as ->.
    rewrite (checkChildNodes_at_text (mkRange (mkRef (uid el) [j]) off)
               (rootRef el) _ j data Hj eq_refl).
    simpl. rewrite Hj. simpl. lia.
  - simpl in Hnode. destruct (nth_error (childNodes el) j) as [c|] eqn:Hj;
      [|discriminate].
    destruct c as [|cs]; [discriminate|].
    destruct (nth_error cs m) as [c'|] eqn:Hm; [|discriminate].
    injection Hnode as ->.
    destruct (nth_error_pre _ j _ Hj) as (post & Hcs & Hlen).
    rewrite Hcs at 1.
    rewrite (checkChildNodes_skip (mkRange (mkRef (uid el) [j; m]) off)
               (rootRef el) [m] (firstn j (childNodes el)) 0 0);
      [|now rewrite Hlen].
    rewrite Hlen. simpl checkChildNodes.
    rewrite (checkChildNodes_at_text (mkRange (mkRef (uid el) [j; m]) off)
               (childRef (rootRef el) j) cs m data Hm eq_refl).
    simpl. rewrite Hj, Hm. simpl. lia.
Qed.

Lemma getCursorIndex_of_shallow_anchor_witness :
  let S := mkElement 1 [Text "ab"; Element [Element [Text "x"]; Text "cd"];
                        Text "ef"] in
  let w := set_selection (Some (mkRange (mkRef 1 [1; 1]%nat) 1)) (page S) in
  getCursorIndex w = Ok 4 w.
Proof.
  intros S w.
  apply (getCursorIndex_of_shallow_anchor w S
           (mkRange (mkRef 1 [1; 1]%nat) 1) "cd");
    try reflexivity; simpl; lia.
Defined.

(** X6. The round trip through the position mapping is exact on a focused
    surface whose text is formatted at most one level deep: for every
    offset between 0 and the length of its text, [setCursorPosition]
    followed by [getCursorIndex] returns that offset. *)
Theorem position_roundtrip_on_shallow_surface w el o :
  activeElement w = Some el -> shallow el ->
  0 <= o <= Js.length (elementText el) ->
  exists w',
    (setCursorPosition (Some el) o ;; getCursorIndex) w = Ok o w' /\
    vim_info w' = vim_info w /\ keydown w' = keydown w.
Proof.
  intros Hel Hshallow Ho.
  pose proof (roundtrip_shallow el o w Hshallow Ho) as Hback.
  rewrite setCursorPosition_caret in Hback. unfold final in Hback.
  rewrite (bind_Ok _ _ _ _ _ (setCursorPosition_caret el o w)).
  set (w' := withCaret (caretNode (rootRef el) (asNode el) o) w) in *.
  assert (activeElement w' = Some el) as Hel'.
  { unfold w'. now rewrite withCaret_frame. }
  exists w'. rewrite (getCursorIndex_offsetIn w' el Hel'), Hback.
  split; [reflexivity|]. unfold w'.
  destruct (caretNode _ _ _); now split.
Qed.

Lemma position_roundtrip_on_shallow_surface_witness :
  let S := mkElement 1 [Text "plain "; Element [Text "bold"]; Text " plain"] in
  exists w', (setCursorPosition (Some S) 8 ;; getCursorIndex) (page S) = Ok 8 w'.
Proof.
  intros S.
  destruct (position_roundtrip_on_shallow_surface (page S) S 8)
    as (w' & Hback & _).
  - reflexivity.
  - split; [reflexivity | discriminate].
  - vm_compute. split; discriminate.
  - exists w'. exact Hback.
Defined.


(** * Further properties of the motions *)

Lemma moveCursorForwards_step w el cur :
  activeElement w = Some el -> shallow el ->
  getCursorIndex w = Ok cur w ->
  0 <= cur < Js.length (elementText el) ->
  exists w',
    moveCursorForwards w = Ok tt w' /\
    activeElement w' = Some el /\
    getCursorIndex w' = Ok (cur + 1) w'.
Proof.
  intros Hel Hshallow Hcur Hrange.
  assert (gets activeElement w = Ok (Some el) w) as Hactive.
  { unfold gets. now rewrite Hel. }
  unfold moveCursorForwards.
  rewrite (bind_Ok _ _ _ _ _ Hcur), (bind_Ok _ _ _ _ _ Hactive).
  destruct (Z.leb_spec (Js.length (elementText el)) cur); [lia|].
  pose proof (roundtrip_shallow el (cur + 1) w Hshallow) as Hback.
  rewrite setCursorPosition_caret in *. unfold final in Hback.
  eexists. split; [reflexivity|].
  assert (activeElement
            (withCaret (caretNode (rootRef el) (asNode el) (cur + 1)) w) =
          Some el) as Hel' by now rewrite withCaret_frame.
  split; [exact Hel'|].
  rewrite (getCursorIndex_offsetIn _ el Hel'), Hback by lia. reflexivity.
Qed.

Lemma moveCursorBackwards_step w el cur :
  activeElement w = Some el -> shallow el ->
  getCursorIndex w = Ok cur w ->
  0 < cur <= Js.length (elementText el) ->
  exists w',
    moveCursorBackwards w = Ok tt w' /\
    activeElement w' = Some el /\
    getCursorIndex w' = Ok (cur - 1) w'.
Proof.
  intros Hel Hshallow Hcur Hrange.
  assert (gets activeElement w = Ok (Some el) w) as Hactive.
  { unfold gets. now rewrite Hel. }
  unfold moveCursorBackwards. rewrite (bind_Ok _ _ _ _ _ Hcur).
  destruct (Z.eqb_spec cur 0); [lia|].
  rewrite (bind_Ok _ _ _ _ _ Hactive).
  pose proof (roundtrip_shallow el (cur - 1) w Hshallow) as Hback.
  rewrite setCursorPosition_caret in *. unfold final in Hback.
  eexists. split; [reflexivity|].
  assert (activeElement
            (withCaret (caretNode (rootRef el) (asNode el) (cur - 1)) w) =
          Some el) as Hel' by now rewrite withCaret_frame.
  split; [exact Hel'|].
  rewrite (getCursorIndex_offsetIn _ el Hel'), Hback by lia. reflexivity.
Qed.

(** X7. On a focused surface formatted at most one level deep,
    character-right followed by character-left brings the cursor back: from
    an offset before the end of the text, [moveCursorForwards] then
    [moveCursorBackwards] return and the cursor is read at the offset it
    started from. *)
Theorem character_right_then_left w el cur :
  activeElement w = Some el -> shallow el ->
  getCursorIndex w = Ok cur w ->
  0 <= cur < Js.length (elementText el) ->
  exists w',
    (moveCursorForwards ;; moveCursorBackwards) w = Ok tt w' /\
    getCursorIndex w' = Ok cur w'.
Proof.
  intros Hel Hshallow Hcur Hrange.
  destruct (moveCursorForwards_step w el cur Hel Hshallow Hcur Hrange)
    as (w1 & Hright & Hel1 & Hcur1).
  destruct (moveCursorBackwards_step w1 el (cur + 1) Hel1 Hshallow Hcur1)
    as (w2 & Hleft & _ & Hcur2); [lia|].
  exists w2. rewrite (bind_Ok _ _ _ _ _ Hright), Hleft.
  split; [reflexivity|]. now replace (cur + 1 - 1) with cur in Hcur2 by lia.
Qed.

Lemma character_right_then_left_witness :
  exists w',
    (moveCursorForwards ;; moveCursorBackwards)
      (Sample.caretAt Sample.hello 2) = Ok tt w' /\
    getCursorIndex w' = Ok 2 w'.
Proof.
  apply (character_right_then_left (Sample.caretAt Sample.hello 2)
                                   Sample.hello 2).
  - reflexivity.
  - split; [reflexivity | discriminate].
  - reflexivity.
  - vm_compute. split; [discriminate | reflexivity].
Defined.



(** * Further properties of the line registry *)

Lemma setActiveLine_frame idx w :
  let w' := final (setActiveLine idx w) in
  selection w' = selection w /\ activeElement w' = activeElement w /\
  vim_mode w' = vim_mode w /\ event w' = event w.
Proof.
  unfold setActiveLine, getActiveLine, bind, gets, ret, modify,
    removeEventListener, addEventListener, click, modify.
  destruct (at_index _ (active_line _)); simpl;
    destruct (at_index _ (clampIndex _ _)); simpl; now repeat split.
Qed.

Lemma setActiveLine_clicked idx w :
  let ls := lines (vim_info w) in
  clicked (final (setActiveLine idx w)) =
  match at_index ls (clampIndex (Z.of_nat (List.length ls)) idx) with
  | Some l => uid (element l) :: clicked w
  | None => clicked w
  end.
Proof.
  unfold setActiveLine, getActiveLine, bind, gets, ret, modify,
    removeEventListener, addEventListener, click, modify.
  destruct (at_index _ (active_line _)); simpl;
    destruct (at_index _ (clampIndex _ _)); reflexivity.
Qed.

Lemma setActiveLine_contract idx w :
  lines (vim_info w) <> [] ->
  let len := Z.of_nat (List.length (lines (vim_info w))) in
  let w' := final (setActiveLine idx w) in
  setActiveLine idx w = Ok tt w' /\
  active_line (vim_info w') = Z.max 0 (Z.min idx (len - 1)) /\
  0 <= active_line (vim_info w') < len /\
  (exists l, at_index (lines (vim_info w)) (active_line (vim_info w')) = Some l /\
             subscribed w' l = true /\
             clicked w' = uid (element l) :: clicked w) /\
  lines (vim_info w') = lines (vim_info w) /\
  mode (vim_info w') = mode (vim_info w) /\
  selection w' = selection w /\ activeElement w' = activeElement w.
Proof.
  intros Hne len w'.
  destruct (at_index_nil_or (lines (vim_info w)) idx) as [Hnil|[l Hl]];
    [contradiction|].
  fold len in Hl.
  assert (0 < len) as Hlen.
  { unfold len. destruct (lines (vim_info w)); [contradiction | simpl; lia]. }
  assert (clampIndex len idx = Z.max 0 (Z.min idx (len - 1))) as Hclamp.
  { unfold clampIndex. destruct (Z.leb_spec len idx);
      [destruct (Z.ltb_spec (len - 1) 0) | destruct (Z.ltb_spec idx 0)]; lia. }
  assert (vim_info w' = set_active_line (clampIndex len idx) (vim_info w))
    as Hinfo.
  { unfold w'. rewrite setActiveLine_vim_info. cbv zeta. fold len.
    now rewrite Hl. }
  destruct (setActiveLine_frame idx w) as (Hsel & Hfocus & _ & _).
  split; [apply setActiveLine_returns|].
  rewrite Hinfo. simpl. rewrite <- Hclamp.
  split; [reflexivity|]. split; [now apply clampIndex_range|].
  split; [|now repeat split].
  exists l. split; [exact Hl|]. split.
  - apply subscribed_In. unfold w'. rewrite setActiveLine_keydown. cbv zeta.
    fold len. rewrite Hl. apply In_subscribe. now left.
  - unfold w'. rewrite setActiveLine_clicked. cbv zeta. fold len.
    now rewrite Hl.
Qed.

(** X9. On a non-empty registry [setActiveLine] accepts every index: it
    returns, commits the index clamped into [0, length - 1] as the active
    line, clicks the surface of the line there and leaves it subscribed; the
    lines, the mode, the selection, the focus, the indicator and the event
    are untouched. *)
Theorem setActiveLine_clamps idx w :
  lines (vim_info w) <> [] ->
  let len := Z.of_nat (List.length (lines (vim_info w))) in
  let w' := final (setActiveLine idx w) in
  setActiveLine idx w = Ok tt w' /\
  active_line (vim_info w') = Z.max 0 (Z.min idx (len - 1)) /\
  0 <= active_line (vim_info w') < len /\
  (exists l, at_index (lines (vim_info w)) (active_line (vim_info w')) = Some l /\
             subscribed w' l = true /\
             clicked w' = uid (element l) :: clicked w) /\
  lines (vim_info w') = lines (vim_info w) /\
  mode (vim_info w') = mode (vim_info w) /\
  selection w' = selection w /\ activeElement w' = activeElement w /\
  vim_mode w' = vim_mode w /\ event w' = event w.
Proof.
  intros Hne len w'.
  destruct (setActiveLine_contract idx w Hne)
    as (Hreturns & Hactive & Hrange & Hline & Hlines & Hmode & Hsel & Hfocus).
  destruct (setActiveLine_frame idx w) as (_ & _ & Hshown & Hevent).
  split; [exact Hreturns|]. split; [exact Hactive|]. split; [exact Hrange|].
  split; [exact Hline|]. split; [exact Hlines|]. split; [exact Hmode|].
  split; [exact Hsel|]. split; [exact Hfocus|].
  split; [exact Hshown | exact Hevent].
Qed.

Lemma setActiveLine_clamps_witness :
  active_line (vim_info (final (setActiveLine 7 Sample.two_lines))) = 1 /\
  active_line (vim_info (final (setActiveLine (-3) Sample.two_lines))) = 0.
Proof.
  destruct (setActiveLine_clamps 7 Sample.two_lines) as (_ & Hhigh & _);
    [discriminate|].
  destruct (setActiveLine_clamps (-3) Sample.two_lines) as (_ & Hlow & _);
    [discriminate|].
  split; [exact Hhigh | exact Hlow].
Defined.

Lemma setLines_unfold f w :
  setLines f w =
  setActiveLine (if active_line (vim_info w) =? 0 then 0
                 else active_line (vim_info w))
    (set_vim_info (set_lines (map (fun elem => mkLine 0 elem) f) (vim_info w))
                  w).
Proof. reflexivity. Qed.

Lemma or_zero a : (if a =? 0 then 0 else a) = a.
Proof. destruct (Z.eqb_spec a 0); congruence. Qed.

Lemma setLines_contract f w :
  let w' := final (setLines f w) in
  let len := Z.of_nat (List.length f) in
  setLines f w = Ok tt w' /\
  lines (vim_info w') = map (fun elem => mkLine 0 elem) f /\
  mode (vim_info w') = mode (vim_info w) /\
  (f = [] ->
   active_line (vim_info w') = active_line (vim_info w) /\
   keydown w' = keydown w) /\
  (f <> [] ->
   active_line (vim_info w') =
     Z.max 0 (Z.min (active_line (vim_info w)) (len - 1)) /\
   exists elem,
     at_index f (active_line (vim_info w')) = Some elem /\
     subscribed w' (mkLine 0 elem) = true).
Proof.
  intros w' len. unfold w'. rewrite setLines_unfold, or_zero.
  set (w1 := set_vim_info _ w).
  assert (lines (vim_info w1) = map (fun elem => mkLine 0 elem) f) as Hlines
      by reflexivity.
  split; [apply setActiveLine_returns|].
  split; [now rewrite setActiveLine_lines|].
  split; [|split].
  - rewrite setActiveLine_vim_info. cbv zeta. now destruct (at_index _ _).
  - intros ->. now rewrite (setActiveLine_empty _ w1 eq_refl).
  - intros Hne.
    assert (lines (vim_info w1) <> []) as Hne1.
    { rewrite Hlines. destruct f; [contradiction | discriminate]. }
    destruct (setActiveLine_contract (active_line (vim_info w)) w1 Hne1)
      as (_ & Hactive & _ & (l & Hl & Hsub & _) & _).
    rewrite Hlines, length_map in Hactive. fold len in Hactive.
    split; [exact Hactive|].
    rewrite Hlines in Hl. unfold at_index in Hl |- *.
    destruct (_ <? 0); [discriminate|].
    rewrite nth_error_map in Hl.
    destruct (nth_error f _) as [elem|]; [|discriminate].
    injection Hl as <-. exists elem. split; [reflexivity | exact Hsub].
Qed.

(** X10. [setLines] replaces the registry wholesale: it returns, the lines
    are the given surfaces in their order, each with cursor position 0, and
    the mode, the selection and the focus are untouched.  With no surface
    given, the active index and
    every subscription stay as they were; otherwise the previously active
    index, clamped into the new range, is the active line and the line
    there is subscribed. *)
Theorem setLines_replaces_registry f w :
  let w' := final (setLines f w) in
  let len := Z.of_nat (List.length f) in
  setLines f w = Ok tt w' /\
  lines (vim_info w') = map (fun elem => mkLine 0 elem) f /\
  mode (vim_info w') = mode (vim_info w) /\
  (selection w' = selection w /\ activeElement w' = activeElement w) /\
  (f = [] ->
   active_line (vim_info w') = active_line (vim_info w) /\
   keydown w' = keydown w) /\
  (f <> [] ->
   active_line (vim_info w') =
     Z.max 0 (Z.min (active_line (vim_info w)) (len - 1)) /\
   exists elem,
     at_index f (active_line (vim_info w')) = Some elem /\
     subscribed w' (mkLine 0 elem) = true).
Proof.
  intros w' len.
  destruct (setLines_contract f w)
    as (Hreturns & Hlines & Hmode & Hnone & Hsome).
  split; [exact Hreturns|]. split; [exact Hlines|]. split; [exact Hmode|].
  split; [|split; [exact Hnone | exact Hsome]].
  unfold w'. rewrite setLines_unfold.
  destruct (setActiveLine_frame
              (if active_line (vim_info w) =? 0 then 0
               else active_line (vim_info w))
              (set_vim_info
                 (set_lines (map (fun elem => mkLine 0 elem) f) (vim_info w))
                 w)) as (Hsel & Hfocus & _).
  split; [exact Hsel | exact Hfocus].
Qed.

Lemma setLines_replaces_registry_witness :
  let w := final (setActiveLine 1 Sample.two_lines) in
  active_line (vim_info (final (setLines [Sample.hello] w))) = 0 /\
  (active_line (vim_info (final (setLines [] w))) = 1 /\
   keydown (final (setLines [] w)) = keydown w).
Proof.
  intros w.
  destruct (setLines_replaces_registry [Sample.hello] w)
    as (_ & _ & _ & _ & _ & Hsome).
  destruct (setLines_replaces_registry [] w) as (_ & _ & _ & _ & Hnone & _).
  split.
  - destruct Hsome as [Hactive _]; [discriminate | exact Hactive].
  - exact (Hnone eq_refl).
Defined.

(** * Further properties of key handling *)

Section Keys.
Variable whitespace : ascii -> bool.

Lemma sameRegistry_refl w : sameRegistry w w.
Proof. now repeat split. Qed.

Lemma sameRegistry_trans w1 w2 w3 :
  sameRegistry w1 w2 -> sameRegistry w2 w3 -> sameRegistry w1 w3.
Proof.
  intros (H1 & H2 & H3) (H4 & H5 & H6). repeat split; congruence.
Qed.

Lemma sameRegistry_setCursorPosition el index w :
  sameRegistry (final (setCursorPosition el index w)) w.
Proof.
  destruct el as [el|]; [|apply sameRegistry_refl].
  rewrite setCursorPosition_caret. unfold final.
  destruct (caretNode (rootRef el) (asNode el) index); now repeat split.
Qed.

Lemma sameRegistry_jumpToNextWORD_node n p w :
  sameRegistry (final (jumpToNextWORD whitespace (Some n) (Some p) w)) w.
Proof.
  rewrite (jumpToNextWORD_resolved whitespace (Some n) (Some p) w n p
             eq_refl eq_refl).
  cbv zeta. destruct (_ <? _); apply sameRegistry_setCursorPosition.
Qed.

(** A motion leaves the registry, the subscriptions and the indicator as
    they were, or as one call of [setActiveLine] leaves them. *)
Lemma motion_registry m w :
  sameRegistry (final (motion whitespace m w)) w \/
  exists idx,
    sameRegistry (final (motion whitespace m w)) (final (setActiveLine idx w)).
Proof.
  destruct m; simpl.
  - left. unfold moveCursorBackwards, bind.
    pose proof (getCursorIndex_unchanged w) as Hsame.
    destruct (getCursorIndex w) as [cur w'|w']; simpl in Hsame; subst w';
      [|apply sameRegistry_refl].
    destruct (cur =? 0); [apply sameRegistry_refl|].
    unfold gets. apply sameRegistry_setCursorPosition.
  - left. unfold moveCursorForwards, bind.
    pose proof (getCursorIndex_unchanged w) as Hsame.
    destruct (getCursorIndex w) as [cur w'|w']; simpl in Hsame; subst w';
      [|apply sameRegistry_refl].
    unfold gets. destruct (activeElement w) as [el|] eqn:Hel;
      [|apply sameRegistry_refl].
    destruct (_ <=? _); [apply sameRegistry_refl|].
    apply sameRegistry_setCursorPosition.
  - right. eexists. unfold bind, getActiveLine, gets.
    apply sameRegistry_refl.
  - right. eexists. unfold bind, getActiveLine, gets.
    apply sameRegistry_refl.
  - destruct (activeElement w) as [el|] eqn:Hel.
    + rewrite (jumpToNextWORD_resolved whitespace None None w el _
                 (getCursorIndex_offsetIn w el Hel) Hel).
      cbv zeta. destruct (_ <? _);
        [left; apply sameRegistry_setCursorPosition|].
      destruct (at_index _ _) as [next|];
        [|left; apply sameRegistry_setCursorPosition].
      right. exists (active_line (vim_info w) + 1).
      rewrite (bind_Ok _ _ _ _ _ (setActiveLine_returns _ w)).
      destruct (RegExp.test _ _);
        [apply sameRegistry_jumpToNextWORD_node
        | apply sameRegistry_setCursorPosition].
    + left. rewrite jumpToNextWORD_unfold.
      unfold jumpToNextWORD_body, getActiveLine, getLines, bind, gets.
      pose proof (getCursorIndex_unchanged w) as Hsame.
      destruct (getCursorIndex w) as [cur w'|w']; simpl in Hsame; subst w';
        [|apply sameRegistry_refl].
      rewrite Hel. apply sameRegistry_refl.
Qed.

Lemma setActiveLine_besides_active_line idx w :
  let w' := final (setActiveLine idx w) in
  lines (vim_info w') = lines (vim_info w) /\
  mode (vim_info w') = mode (vim_info w) /\
  cursor_position (vim_info w') = cursor_position (vim_info w) /\
  vim_mode w' = vim_mode w.
Proof.
  cbv zeta. rewrite setActiveLine_vim_info. cbv zeta.
  destruct (setActiveLine_frame idx w) as (_ & _ & Hshown & _).
  destruct (at_index _ _); now repeat split.
Qed.

Lemma normalReducer_branches k w :
  let a := active_line (vim_info w) in
  normalReducer whitespace (set_event (mkEvent k false false) w) =
  (if (String.eqb k "a" || String.eqb k "i")%bool then
     preventDefault ;; setMode insert ;; updateInfoContainer
   else if String.eqb k "h" then preventDefault ;; moveCursorBackwards
   else if String.eqb k "j" then preventDefault ;; setActiveLine (a + 1)
   else if String.eqb k "k" then preventDefault ;; setActiveLine (a - 1)
   else if String.eqb k "l" then preventDefault ;; moveCursorForwards
   else if String.eqb k "W" then
     preventDefault ;; jumpToNextWORD whitespace None None
   else preventDefault) (set_event (mkEvent k false false) w).
Proof. reflexivity. Qed.

(** What a key of normal mode other than [a] and [i] does to the world
    from which the handler starts. *)
Lemma normalReducer_motion k w :
  String.eqb k "a" = false -> String.eqb k "i" = false ->
  let w0 := set_event (mkEvent k true false) w in
  final (normalReducer whitespace (set_event (mkEvent k false false) w)) = w0 \/
  exists m, final (normalReducer whitespace
                     (set_event (mkEvent k false false) w)) =
            final (motion whitespace m w0).
Proof.
  intros Ha Hi w0. rewrite normalReducer_branches, Ha, Hi. cbn [orb].
  destruct (String.eqb k "h"); [right; exists characterLeft; reflexivity|].
  destruct (String.eqb k "j"); [right; exists lineDown; reflexivity|].
  destruct (String.eqb k "k"); [right; exists lineUp; reflexivity|].
  destruct (String.eqb k "l"); [right; exists characterRight; reflexivity|].
  destruct (String.eqb k "W"); [right; exists wordForward; reflexivity|].
  left. reflexivity.
Qed.

(** X11. In normal mode a key other than [a] and [i] never leaves normal
    mode, never changes the lines of the registry or the indicator, and no
    key of normal mode stops the propagation of its event. *)
Theorem normal_mode_keys_keep_mode k w :
  mode (vim_info w) = normal ->
  let w' := final (dispatchKeydown whitespace k w) in
  propagationStopped (event w') = false /\
  (k <> "a" -> k <> "i" ->
   mode (vim_info w') = normal /\
   lines (vim_info w') = lines (vim_info w) /\
   vim_mode w' = vim_mode w).
Proof.
  intros Hnormal w'. unfold w'. rewrite dispatchKeydown_handler, Hnormal.
  destruct (String.eqb k "a" || String.eqb k "i")%bool eqn:Hkey.
  - split.
    + rewrite normalReducer_branches, Hkey. unfold preventDefault, setMode, updateInfoContainer,
        bind, modify. cbn. now destruct (vim_mode w).
    + intros Ha Hi. apply String.eqb_neq in Ha, Hi.
      rewrite Ha, Hi in Hkey. discriminate.
  - apply orb_false_elim in Hkey as [Ha Hi].
    destruct (normalReducer_motion k w Ha Hi) as [->|[m ->]].
    + now repeat split.
    + set (w0 := set_event (mkEvent k true false) w).
      split; [now rewrite (preserves_motion whitespace event m w0)|].
      intros _ _.
      destruct (motion_registry m w0) as [(Hinfo & _ & Hshown)
                                         |(idx & Hinfo & _ & Hshown)].
      * rewrite Hinfo, Hshown. now repeat split.
      * destruct (setActiveLine_besides_active_line idx w0)
          as (Hlines & Hmode & _ & Hshown').
        rewrite Hinfo, Hshown, Hlines, Hmode, Hshown'. now repeat split.
Qed.

End Keys.

Lemma normal_mode_keys_keep_mode_witness :
  let w' := final (dispatchKeydown RegExp.space_class "j" Sample.two_lines) in
  propagationStopped (event w') = false /\ mode (vim_info w') = normal.
Proof.
  intros w'.
  destruct (normal_mode_keys_keep_mode RegExp.space_class "j" Sample.two_lines
              eq_refl) as (Hstop & Hkeep).
  split; [exact Hstop|].
  destruct Hkeep as (Hmode & _); [discriminate | discriminate | exact Hmode].
Defined.

(** X12. In normal mode on a non-empty registry whose active index is in
    range, the key [j] makes the next line active and stays on the last
    line, and the key [k] makes the previous line active and stays on the
    first. *)
Theorem line_keys_step_within_registry whitespace w :
  mode (vim_info w) = normal ->
  lines (vim_info w) <> [] ->
  activeInRange w ->
  let a := active_line (vim_info w) in
  let len := Z.of_nat (List.length (lines (vim_info w))) in
  active_line (vim_info (final (dispatchKeydown whitespace "j" w))) =
    Z.min (a + 1) (len - 1) /\
  active_line (vim_info (final (dispatchKeydown whitespace "k" w))) =
    Z.max (a - 1) 0.
Proof.
  intros Hnormal Hne [Hlow Hhigh] a len. specialize (Hhigh Hne).
  fold a len in Hlow, Hhigh.
  rewrite !dispatchKeydown_handler, Hnormal, !normalReducer_branches.
  cbn [String.eqb Ascii.eqb Bool.eqb orb andb].
  set (w0 := set_event (mkEvent "j" true false) w).
  set (w1 := set_event (mkEvent "k" true false) w).
  change (final ((preventDefault ;; setActiveLine (active_line (vim_info w) + 1))
                   (set_event (mkEvent "j" false false) w)))
    with (final (setActiveLine (a + 1) w0)).
  change (final ((preventDefault ;; setActiveLine (active_line (vim_info w) - 1))
                   (set_event (mkEvent "k" false false) w)))
    with (final (setActiveLine (a - 1) w1)).
  destruct (setActiveLine_contract (a + 1) w0 Hne) as (_ & Hdown & _).
  destruct (setActiveLine_contract (a - 1) w1 Hne) as (_ & Hup & _).
  rewrite Hdown, Hup. change (lines (vim_info w0)) with (lines (vim_info w)).
  change (lines (vim_info w1)) with (lines (vim_info w)). fold len. lia.
Qed.

Lemma line_keys_step_within_registry_witness :
  let w := Sample.two_lines in
  let down := final (dispatchKeydown RegExp.space_class "j" w) in
  active_line (vim_info down) = 1 /\
  active_line (vim_info (final (dispatchKeydown RegExp.space_class "j" down)))
    = 1 /\
  active_line (vim_info (final (dispatchKeydown RegExp.space_class "k" w))) = 0.
Proof.
  intros w down.
  destruct (line_keys_step_within_registry RegExp.space_class w)
    as (Hdown & Hup); [reflexivity | discriminate | vm_compute |].
  { split; [discriminate | reflexivity]. }
  destruct (line_keys_step_within_registry RegExp.space_class down)
    as (Hstay & _); [reflexivity | discriminate | vm_compute |].
  { split; [discriminate | reflexivity]. }
  split; [exact Hdown|]. split; [exact Hstay | exact Hup].
Defined.

(** * The engine's invariant *)

Section Invariant.
Variable whitespace : ascii -> bool.

Lemma engineInvariant_sameRegistry w1 w2 :
  sameRegistry w1 w2 -> engineInvariant w2 -> engineInvariant w1.
Proof.
  intros (Hinfo & Hkeys & Hshown). unfold engineInvariant, activeInRange,
    subscribed. cbv zeta. now rewrite Hinfo, Hkeys, Hshown.
Qed.

Lemma engineInvariant_setActiveLine idx w :
  engineInvariant w -> engineInvariant (final (setActiveLine idx w)).
Proof.
  intros Hinv. destruct (lines (vim_info w)) as [|l0 ls] eqn:Hlines.
  - now rewrite (setActiveLine_empty idx w Hlines).
  - assert (lines (vim_info w) <> []) as Hne by (rewrite Hlines; discriminate).
    destruct (setActiveLine_contract idx w Hne)
      as (_ & _ & Hrange & (l & Hl & Hsub & _) & Hsame & Hmode & _).
    destruct (setActiveLine_besides_active_line idx w)
      as (_ & _ & Hcursor & Hshown).
    destruct Hinv as (_ & _ & Hind & Hzero & Hall).
    unfold engineInvariant, activeInRange. cbv zeta.
    rewrite Hsame, Hmode, Hcursor, Hshown.
    split; [split; [lia | intros _; lia]|].
    split; [intros _; now exists l|]. now repeat split.
Qed.

Lemma engineInvariant_setLines f w :
  f <> [] -> engineInvariant w -> engineInvariant (final (setLines f w)).
Proof.
  intros Hne (_ & _ & Hind & Hzero & _).
  destruct (setLines_contract f w)
    as (_ & Hlines & Hmode & _ & Hsome).
  destruct (Hsome Hne) as (Hactive & elem & Helem & Hsub).
  assert (cursor_position (vim_info (final (setLines f w))) = 0 /\
          vim_mode (final (setLines f w)) = vim_mode w) as [Hcursor Hshown].
  { rewrite setLines_unfold.
    destruct (setActiveLine_besides_active_line
                (if active_line (vim_info w) =? 0 then 0
                 else active_line (vim_info w))
                (set_vim_info
                   (set_lines (map (fun elem => mkLine 0 elem) f) (vim_info w))
                   w)) as (_ & _ & Hc & Hs).
    rewrite Hc, Hs. now split. }
  assert (0 < Z.of_nat (List.length f)) as Hlen.
  { destruct f; [contradiction | simpl; lia]. }
  unfold engineInvariant, activeInRange. cbv zeta.
  rewrite Hlines, Hmode, Hcursor, Hshown, length_map.
  split; [rewrite Hactive; split; [lia | intros _; lia]|].
  split.
  - intros _. exists (mkLine 0 elem). split; [|exact Hsub].
    unfold at_index in Helem |- *. destruct (_ <? 0); [discriminate|].
    rewrite nth_error_map. now rewrite Helem.
  - split; [exact Hind|]. split; [reflexivity|].
    apply Forall_forall. intros l Hin. apply in_map_iff in Hin as (e & <- & _).
    reflexivity.
Qed.

Lemma engineInvariant_enterMode m e w :
  engineInvariant w ->
  engineInvariant
    (final ((setMode m ;; updateInfoContainer) (set_event e w))).
Proof.
  intros (Hrange & Hsub & Hind & Hzero & Hall).
  assert (final ((setMode m ;; updateInfoContainer) (set_event e w)) =
          set_vim_mode (Some (getModeText m))
            (set_vim_info (set_mode m (vim_info w)) (set_event e w))) as ->.
  { unfold setMode, updateInfoContainer, bind, modify. unfold final.
    change (vim_mode (set_vim_info (set_mode m (vim_info (set_event e w)))
                                   (set_event e w)))
      with (vim_mode w).
    now rewrite Hind. }
  split; [exact Hrange|]. split; [exact Hsub|]. split; [reflexivity|].
  split; [exact Hzero | exact Hall].
Qed.

Lemma engineInvariant_dispatchKeydown k w :
  engineInvariant w ->
  engineInvariant (final (dispatchKeydown whitespace k w)).
Proof.
  intros Hinv. rewrite dispatchKeydown_handler.
  destruct (mode (vim_info w)) eqn:Hmode.
  - destruct (String.eqb k "a" || String.eqb k "i")%bool eqn:Hkey.
    + rewrite normalReducer_branches, Hkey.
      change (final ((preventDefault ;; setMode insert ;; updateInfoContainer)
                       (set_event (mkEvent k false false) w)))
        with (final ((setMode insert ;; updateInfoContainer)
                       (set_event (mkEvent k true false) w))).
      now apply engineInvariant_enterMode.
    + apply orb_false_elim in Hkey as [Ha Hi].
      assert (engineInvariant (set_event (mkEvent k true false) w)) as Hinv0.
      { apply (engineInvariant_sameRegistry _ w); [now repeat split | exact Hinv]. }
      destruct (normalReducer_motion whitespace k w Ha Hi) as [->|[m ->]];
        [exact Hinv0|].
      destruct (motion_registry whitespace m
                  (set_event (mkEvent k true false) w)) as [Hsame|[idx Hsame]].
      * exact (engineInvariant_sameRegistry _ _ Hsame Hinv0).
      * apply (engineInvariant_sameRegistry _ _ Hsame).
        now apply engineInvariant_setActiveLine.
  - unfold insertReducer. unfold bind at 1, gets at 1.
    change (key (event (set_event (mkEvent k false false) w))) with k.
    destruct (String.eqb k "Escape").
    + change (final ((preventDefault ;; stopPropagation ;; setMode normal ;;
                      updateInfoContainer)
                       (set_event (mkEvent k false false) w)))
        with (final ((setMode normal ;; updateInfoContainer)
                       (set_event (mkEvent k true true) w))).
      now apply engineInvariant_enterMode.
    + apply (engineInvariant_sameRegistry _ w); [now repeat split | exact Hinv].
Qed.

Lemma engineInvariant_attempt document s :
  engineInvariant (world s) ->
  engineInvariant (world (snd (attemptToFindElements document s))).
Proof.
  intros Hinv. unfold attemptToFindElements.
  destruct (findNotionEditableBlocks document) as [|e es] eqn:Hfound; simpl.
  - exact Hinv.
  - apply engineInvariant_setLines; [discriminate | exact Hinv].
Qed.

Lemma engineInvariant_happen h s :
  engineInvariant (world s) -> engineInvariant (world (happen whitespace h s)).
Proof.
  intros Hinv. destruct h as [document| |mutations document|k|el|r]; simpl.
  - destruct (poll s); [|exact Hinv].
    pose proof (engineInvariant_attempt document s Hinv) as Hnext.
    destruct (attemptToFindElements document s) as [found s'].
    simpl in Hnext. now destruct (found || _)%bool.
  - now destruct (observerTimer s).
  - destruct (observer s && shouldRefresh mutations)%bool; [|exact Hinv].
    destruct (findNotionEditableBlocks document) as [|e es] eqn:Hfound; simpl;
      [exact Hinv|].
    apply engineInvariant_setLines; [discriminate | exact Hinv].
  - destruct (keydown (world s)); [exact Hinv|]. simpl.
    now apply engineInvariant_dispatchKeydown.
  - apply (engineInvariant_sameRegistry _ (world s));
      [now repeat split | exact Hinv].
  - apply (engineInvariant_sameRegistry _ (world s));
      [now repeat split | exact Hinv].
Qed.

Lemma engineInvariant_start document w :
  engineInvariant (world (initializeWithRetry document w)).
Proof.
  unfold initializeWithRetry.
  assert (engineInvariant (final ((initVimInfo ;; createInfoContainer) w)))
    as Hstart.
  { unfold engineInvariant, activeInRange. cbv zeta.
    change (vim_info (final ((initVimInfo ;; createInfoContainer) w)))
      with (mkVimInfo 0 0 [] normal).
    split; [split; [simpl; lia | intros H; now contradiction H]|].
    split; [intros H; now contradiction H|].
    split; [reflexivity|]. split; [reflexivity | constructor]. }
  pose proof (engineInvariant_attempt document
                (mkSession (final ((initVimInfo ;; createInfoContainer) w))
                           0 false false false) Hstart) as Hnext.
  destruct (attemptToFindElements document _) as [found s'].
  simpl in Hnext. now destruct found.
Qed.

Lemma engineInvariant_run happenings : forall s,
  engineInvariant (world s) ->
  engineInvariant (world (run whitespace happenings s)).
Proof.
  induction happenings as [|h rest IH]; intros s Hinv; simpl.
  - exact Hinv.
  - apply IH. now apply engineInvariant_happen.
Qed.

Lemma engineInvariant_session document w happenings :
  engineInvariant
    (world (run whitespace happenings (initializeWithRetry document w))).
Proof. apply engineInvariant_run, engineInvariant_start. Qed.

End Invariant.

(** X13. Whatever happens to a session (interval firings, observed
    mutations, key presses, the host moving focus or selection), the active
    index is never negative, and once lines are registered it stays below
    their number and the surface of the active line holds the keydown
    subscription. *)
Theorem active_line_stays_valid_and_subscribed
        whitespace document w happenings :
  let now :=
    world (run whitespace happenings (initializeWithRetry document w)) in
  let v := vim_info now in
  0 <= active_line v /\
  (lines v <> [] ->
   active_line v < Z.of_nat (List.length (lines v)) /\
   exists l, at_index (lines v) (active_line v) = Some l /\
             subscribed now l = true).
Proof.
  destruct (engineInvariant_session whitespace document w happenings)
    as ((Hlow & Hhigh) & Hsub & _).
  cbv zeta. split; [exact Hlow|]. intros Hne. split; [now apply Hhigh|].
  now apply Hsub.
Qed.

(** X14. Whatever happens to a session, the indicator shows the label of
    the current mode. *)
Theorem indicator_shows_mode whitespace document w happenings :
  let now :=
    world (run whitespace happenings (initializeWithRetry document w)) in
  vim_mode now = Some (getModeText (mode (vim_info now))).
Proof.
  destruct (engineInvariant_session whitespace document w happenings)
    as (_ & _ & Hshown & _).
  exact Hshown.
Qed.

(** X15. The stored cursor positions are never written after they are
    initialised: whatever happens to a session, [vim_info.cursor_position]
    and the [cursor_position] of every tracked line are 0, wherever the
    cursor has been moved. *)
Theorem cursor_position_fields_stay_zero whitespace document w happenings :
  let now :=
    world (run whitespace happenings (initializeWithRetry document w)) in
  cursor_position (vim_info now) = 0 /\
  Forall (fun l => line_cursor_position l = 0) (lines (vim_info now)).
Proof.
  destruct (engineInvariant_session whitespace document w happenings)
    as (_ & _ & _ & Hzero & Hall).
  split; [exact Hzero | exact Hall].
Qed.

(** * Discovery and bootstrap *)

Lemma nonEmpty_spec {A} (l : list A) :
  (0 <? Z.of_nat (List.length l)) = true <-> l <> [].
Proof.
  destruct l as [|x l]; simpl.
  - split; [discriminate | intros H; now contradiction H].
  - split; [discriminate | reflexivity].
Qed.

Lemma firstNonEmpty_nil document : forall candidates,
  firstNonEmpty document candidates = [] <->
  forall selector, In selector candidates -> document selector = [].
Proof.
  induction candidates as [|c rest IH]; simpl.
  - split; [intros _ s [] | reflexivity].
  - destruct (0 <? Z.of_nat (List.length (document c))) eqn:Hc.
    + apply nonEmpty_spec in Hc. split.
      * intros H. contradiction.
      * intros H. exfalso. apply Hc, H. now left.
    + assert (document c = []) as Hnil.
      { destruct (document c); [reflexivity | discriminate]. }
      rewrite IH. split.
      * intros H s [<-|Hs]; [exact Hnil | now apply H].
      * intros H s Hs. apply H. now right.
Qed.

Lemma firstNonEmpty_first document selector post : forall pre,
  (forall s, In s pre -> document s = []) ->
  document selector <> [] ->
  firstNonEmpty document (pre ++ selector :: post) = document selector.
Proof.
  induction pre as [|c pre IH]; intros Hpre Hsel; simpl.
  - apply nonEmpty_spec in Hsel. now rewrite Hsel.
  - rewrite (Hpre c) by now left. simpl. apply IH; [|exact Hsel].
    intros s Hs. apply Hpre. now right.
Qed.

(** X16. [findNotionEditableBlocks] answers with the elements of the first
    of its three selectors that matches anything, in the order the more
    specific selector comes first, and with no element exactly when none of
    the selectors matches. *)
Theorem findNotionEditableBlocks_first_match document :
  (findNotionEditableBlocks document = [] <->
   forall selector, In selector selectors -> document selector = []) /\
  (forall pre selector post,
      selectors = (pre ++ selector :: post)%list ->
      (forall s, In s pre -> document s = []) ->
      document selector <> [] ->
      findNotionEditableBlocks document = document selector).
Proof.
  split.
  - apply firstNonEmpty_nil.
  - intros pre selector post Hsplit Hpre Hsel.
    unfold findNotionEditableBlocks. rewrite Hsplit.
    now apply firstNonEmpty_first.
Qed.

Lemma findNotionEditableBlocks_first_match_witness :
  let document := fun selector =>
    if String.eqb selector "[contenteditable=true]"
    then [Sample.first_line; Sample.next_line] else [] in
  findNotionEditableBlocks document = [Sample.first_line; Sample.next_line].
Proof.
  intros document.
  destruct (findNotionEditableBlocks_first_match document) as (_ & Hfirst).
  apply (Hfirst [".notion-page-content [contenteditable=true]";
                 "[class*='notion'] [contenteditable=true]"]
                "[contenteditable=true]" []).
  - reflexivity.
  - intros s [<-|[<-|[]]]; reflexivity.
  - discriminate.
Defined.

Section Bootstrap.
Variable whitespace : ascii -> bool.

Lemma attemptToFindElements_counts document s :
  let '(found, s') := attemptToFindElements document s in
  attempts s' = attempts s + 1 /\ poll s' = poll s /\
  observerTimer s' = observerTimer s /\ observer s' = observer s.
Proof.
  unfold attemptToFindElements. destruct (0 <? _); now repeat split.
Qed.

Lemma counted_happen h s :
  counted s -> counted (happen whitespace h s).
Proof.
  intros Hs. pose proof Hs as [Hrange Hpoll].
  destruct h as [document| |mutations document|k|el|r]; simpl.
  - destruct (poll s) eqn:Hp; [|exact Hs].
    specialize (Hpoll eq_refl).
    pose proof (attemptToFindElements_counts document s) as Hcount.
    destruct (attemptToFindElements document s) as [found s'].
    destruct Hcount as (Hattempts & Hpoll' & _).
    destruct (found || (maxAttempts <=? attempts s'))%bool eqn:Hstop.
    + split; simpl; [unfold maxAttempts in *; lia | discriminate].
    + apply orb_false_elim in Hstop as [_ Hbelow].
      apply Z.leb_gt in Hbelow. split; [lia | intros _; lia].
  - destruct (observerTimer s); exact Hs.
  - destruct (observer s && shouldRefresh mutations)%bool; [|exact Hs].
    destruct (0 <? _); exact Hs.
  - destruct (keydown (world s)); exact Hs.
  - exact Hs.
  - exact Hs.
Qed.

Lemma counted_start document w : counted (initializeWithRetry document w).
Proof.
  unfold initializeWithRetry, attemptToFindElements, counted, maxAttempts.
  destruct (0 <? _); simpl; split; try lia; discriminate.
Qed.

Lemma poll_stays_cleared happenings : forall s,
  poll s = false -> poll (run whitespace happenings s) = false.
Proof.
  induction happenings as [|h rest IH]; intros s Hp; simpl; [exact Hp|].
  apply IH. destruct h as [document| |mutations document|k|el|r]; simpl.
  - now rewrite Hp.
  - now destruct (observerTimer s).
  - destruct (observer s && shouldRefresh mutations)%bool; [|exact Hp].
    now destruct (0 <? _).
  - now destruct (keydown (world s)).
  - exact Hp.
  - exact Hp.
Qed.

Lemma counted_run happenings : forall s,
  counted s ->
  counted (run whitespace happenings s) /\
  (maxAttempts <= attempts s + intervalFirings happenings ->
   poll (run whitespace happenings s) = false).
Proof.
  induction happenings as [|h rest IH]; intros s Hs.
  - simpl. split; [exact Hs|]. intros Hfull.
    destruct Hs as [_ Hpoll]. destruct (poll s); [|reflexivity].
    specialize (Hpoll eq_refl). lia.
  - pose proof (counted_happen h s Hs) as Hnext.
    destruct (IH _ Hnext) as [Hcounted Hstops].
    split; [exact Hcounted|]. intros Hfull. simpl run.
    destruct (poll (happen whitespace h s)) eqn:Hp;
      [|now apply poll_stays_cleared].
    apply Hstops.
    destruct h as [document| |mutations document|k|el|r];
      cbn [happen intervalFirings] in *.
    + destruct (poll s) eqn:Hps; [|congruence].
      pose proof (attemptToFindElements_counts document s) as Hcount.
      destruct (attemptToFindElements document s) as [found s'].
      destruct Hcount as (Hattempts & _).
      destruct (found || (maxAttempts <=? attempts s'))%bool;
        simpl in Hp |- *; [discriminate | lia].
    + destruct (observerTimer s); simpl; lia.
    + destruct (observer s && shouldRefresh mutations)%bool; [|lia].
      destruct (0 <? _); simpl; lia.
    + destruct (keydown (world s)); simpl; lia.
    + exact Hfull.
    + exact Hfull.
Qed.

(** X17. The bootstrap never makes more than ten discovery attempts:
    whatever happens to a session, its attempt counter is between 1 and
    [maxAttempts], and once the interval has fired nine times it has been
    cleared, found or not. *)
Theorem polling_stops_within_ten_attempts document w happenings :
  let s := run whitespace happenings (initializeWithRetry document w) in
  1 <= attempts s <= maxAttempts /\
  (9 <= intervalFirings happenings -> poll s = false).
Proof.
  destruct (counted_run happenings _ (counted_start document w))
    as [[Hrange _] Hstops].
  split; [exact Hrange|]. intros Hnine. apply Hstops.
  assert (attempts (initializeWithRetry document w) = 1) as ->.
  { unfold initializeWithRetry, attemptToFindElements.
    now destruct (0 <? _). }
  unfold maxAttempts. lia.
Qed.

Lemma dispatchKeydown_lines k w :
  lines (vim_info (final (dispatchKeydown whitespace k w))) =
  lines (vim_info w).
Proof.
  rewrite dispatchKeydown_handler. destruct (mode (vim_info w)).
  - destruct (String.eqb k "a" || String.eqb k "i")%bool eqn:Hkey.
    + rewrite normalReducer_branches, Hkey.
      unfold preventDefault, setMode, updateInfoContainer, bind, modify.
      unfold final. now destruct (vim_mode _).
    + apply orb_false_elim in Hkey as [Ha Hi].
      destruct (normalReducer_motion whitespace k w Ha Hi) as [->|[m ->]];
        [reflexivity|].
      destruct (motion_registry whitespace m
                  (set_event (mkEvent k true false) w))
        as [(Hinfo & _)|(idx & Hinfo & _)]; rewrite Hinfo;
        [reflexivity | now rewrite setActiveLine_lines].
  - unfold insertReducer, bind, gets.
    change (key (event (set_event (mkEvent k false false) w))) with k.
    destruct (String.eqb k "Escape"); [|reflexivity].
    unfold preventDefault, stopPropagation, setMode, updateInfoContainer,
      modify. unfold final. now destruct (vim_mode _).
Qed.

Lemma quiet_run registered happenings : forall s,
  poll s = false -> observerTimer s = false -> observer s = false ->
  lines (vim_info (world s)) = registered ->
  let s' := run whitespace happenings s in
  poll s' = false /\ observerTimer s' = false /\ observer s' = false /\
  lines (vim_info (world s')) = registered.
Proof.
  induction happenings as [|h rest IH]; intros s Hp Ht Ho Hl; simpl.
  - now repeat split.
  - apply IH; destruct h as [document| |mutations document|k|el|r]; simpl;
      rewrite ?Hp, ?Ht, ?Ho; try assumption; try reflexivity;
      destruct (keydown (world s)); simpl; try assumption.
    now rewrite dispatchKeydown_lines.
Qed.

(** X18. When the first discovery attempt finds editable elements,
    [initializeWithRetry] returns before it sets the interval or installs
    the mutation observer: whatever happens afterwards, the registry keeps
    the lines of that first discovery and is never refreshed. *)
Theorem found_at_once_is_never_refreshed document w happenings :
  findNotionEditableBlocks document <> [] ->
  let s := run whitespace happenings (initializeWithRetry document w) in
  lines (vim_info (world s)) =
    map (fun elem => mkLine 0 elem) (findNotionEditableBlocks document) /\
  poll s = false /\ observerTimer s = false /\ observer s = false.
Proof.
  intros Hfound.
  assert (let s0 := initializeWithRetry document w in
          poll s0 = false /\ observerTimer s0 = false /\ observer s0 = false /\
          lines (vim_info (world s0)) =
            map (fun elem => mkLine 0 elem) (findNotionEditableBlocks document))
    as (Hp & Ht & Ho & Hl).
  { unfold initializeWithRetry, attemptToFindElements.
    apply nonEmpty_spec in Hfound. rewrite Hfound. simpl.
    repeat split.
    destruct (setLines_contract (findNotionEditableBlocks document)
                (final ((initVimInfo ;; createInfoContainer) w)))
      as (_ & Hlines & _).
    exact Hlines. }
  destruct (quiet_run _ happenings _ Hp Ht Ho Hl) as (Hp' & Ht' & Ho' & Hl').
  now repeat split.
Qed.

End Bootstrap.

Lemma active_line_stays_valid_and_subscribed_witness :
  let document : Document :=
    fun _ => [Sample.first_line; Sample.next_line] in
  let now :=
    world (run RegExp.space_class [KeyPressed "j"; KeyPressed "j"]
               (initializeWithRetry document (page Sample.body))) in
  active_line (vim_info now) < 2 /\
  exists l, at_index (lines (vim_info now)) (active_line (vim_info now)) =
            Some l /\ subscribed now l = true.
Proof.
  intros document now.
  destruct (active_line_stays_valid_and_subscribed RegExp.space_class document
              (page Sample.body) [KeyPressed "j"; KeyPressed "j"])
    as (_ & Hvalid).
  apply Hvalid. vm_compute. discriminate.
Defined.

Lemma polling_stops_within_ten_attempts_witness :
  let nothing : Document := fun _ => [] in
  let s := run RegExp.space_class (repeat (IntervalFires nothing) 9)
               (initializeWithRetry nothing (page Sample.body)) in
  attempts s <= 10 /\ poll s = false.
Proof.
  intros nothing s.
  destruct (polling_stops_within_ten_attempts RegExp.space_class nothing
              (page Sample.body) (repeat (IntervalFires nothing) 9))
    as ((_ & Hmost) & Hcleared).
  split; [exact Hmost|]. apply Hcleared. vm_compute. discriminate.
Defined.

Lemma found_at_once_is_never_refreshed_witness :
  let document : Document := fun _ => [Sample.first_line] in
  let later : Document := fun _ => [Sample.added_line; Sample.first_line] in
  let s := run RegExp.space_class
               [TimeoutFires; Mutated [mkMutation 1 0] later;
                IntervalFires later]
               (initializeWithRetry document (page Sample.body)) in
  lines (vim_info (world s)) = [mkLine 0 Sample.first_line] /\
  observer s = false.
Proof.
  intros document later s.
  destruct (found_at_once_is_never_refreshed RegExp.space_class document
              (page Sample.body)
              [TimeoutFires; Mutated [mkMutation 1 0] later;
               IntervalFires later])
    as (Hlines & _ & _ & Hobserver).
  - vm_compute. discriminate.
  - split; [exact Hlines | exact Hobserver].
Defined.

(** * Word-forward and refresh, in general *)

Lemma jumpToNextWORD_registry whitespace w :
  let w' := final (jumpToNextWORD whitespace None None w) in
  let a := active_line (vim_info w) in
  sameRegistry w' w \/
  exists next,
    at_index (lines (vim_info w)) (a + 1) = Some next /\
    sameRegistry w' (final (setActiveLine (a + 1) w)).
Proof.
  cbv zeta. destruct (activeElement w) as [el|] eqn:Hel.
  - rewrite (jumpToNextWORD_resolved whitespace None None w el _
               (getCursorIndex_offsetIn w el Hel) Hel).
    cbv zeta. destruct (_ <? _);
      [left; apply sameRegistry_setCursorPosition|].
    destruct (at_index _ _) as [next|] eqn:Hnext;
      [|left; apply sameRegistry_setCursorPosition].
    right. exists next. split; [reflexivity|].
    rewrite (bind_Ok _ _ _ _ _ (setActiveLine_returns _ w)).
    destruct (RegExp.test _ _);
      [apply sameRegistry_jumpToNextWORD_node
      | apply sameRegistry_setCursorPosition].
  - left. rewrite jumpToNextWORD_unfold.
    unfold jumpToNextWORD_body, getActiveLine, getLines, bind, gets.
    pose proof (getCursorIndex_unchanged w) as Hsame.
    destruct (getCursorIndex w) as [cur w'|w']; simpl in Hsame; subst w';
      [|apply sameRegistry_refl].
    rewrite Hel. apply sameRegistry_refl.
Qed.

(** X19. Word-forward never moves by more than one line: after
    [jumpToNextWORD()] the active index is the one before or, when a next
    line exists, its successor, whatever the text of the lines; the lines of
    the registry and the mode are untouched. *)
Theorem word_forward_moves_at_most_one_line whitespace w :
  let w' := final (jumpToNextWORD whitespace None None w) in
  let a := active_line (vim_info w) in
  (active_line (vim_info w') = a \/
   active_line (vim_info w') = a + 1 /\
   at_index (lines (vim_info w)) (a + 1) <> None) /\
  lines (vim_info w') = lines (vim_info w) /\
  mode (vim_info w') = mode (vim_info w).
Proof.
  destruct (jumpToNextWORD_registry whitespace w)
    as [(Hinfo & _)|(next & Hnext & Hinfo & _)]; cbv zeta; rewrite Hinfo.
  - split; [now left | now split].
  - rewrite (setActiveLine_inside _ _ _ Hnext). simpl.
    split; [right; split; [reflexivity | congruence] | now split].
Qed.

Lemma subscribe_single u v :
  subscribe v (unsubscribe v [u]) = if Nat.eqb v u then [u] else [u; v].
Proof.
  unfold subscribe, unsubscribe. simpl. rewrite (Nat.eqb_sym u v).
  destruct (Nat.eqb_spec v u) as [->|Hvu]; simpl.
  - reflexivity.
  - destruct (Nat.eqb_spec v u); [contradiction | reflexivity].
Qed.

Lemma subscribe_kept u v :
  subscribe v [u] = if Nat.eqb v u then [u] else [u; v].
Proof. unfold subscribe. simpl. now destruct (Nat.eqb v u). Qed.

(** X20. What a refresh does to the subscriptions: when exactly the
    surface [u] is subscribed and [setLines] is given a non-empty list, the
    surface at the previously active index (clamped into the new list) is
    subscribed; [u] keeps its subscription in every case, so that one
    surface is subscribed afterwards if that surface is [u] itself and two
    are otherwise. *)
Theorem refresh_subscriptions f w u elem :
  keydown w = [u] ->
  at_index f (clampIndex (Z.of_nat (List.length f)) (active_line (vim_info w)))
    = Some elem ->
  keydown (final (setLines f w)) =
  if Nat.eqb (uid elem) u then [u] else [u; uid elem].
Proof.
  intros Hkeys Helem. rewrite setLines_unfold, or_zero.
  set (a := active_line (vim_info w)) in *.
  set (w1 := set_vim_info _ w).
  rewrite setActiveLine_keydown. cbv zeta.
  change (lines (vim_info w1)) with (map (fun e => mkLine 0 e) f).
  change (active_line (vim_info w1)) with a.
  change (keydown w1) with (keydown w).
  rewrite length_map, Hkeys.
  assert (forall i, at_index (map (fun e => mkLine 0 e) f) i =
                    option_map (fun e => mkLine 0 e) (at_index f i)) as Hmap.
  { intros i. unfold at_index. destruct (i <? 0); [reflexivity|].
    now rewrite nth_error_map. }
  rewrite !Hmap, Helem. simpl option_map.
  destruct (at_index f a) as [e|] eqn:Ha; simpl option_map.
  - rewrite (clampIndex_inside _ _ (at_index_range _ _ _ Ha)) in Helem.
    rewrite Ha in Helem. injection Helem as ->. simpl.
    apply subscribe_single.
  - simpl. apply subscribe_kept.
Qed.

Lemma refresh_subscriptions_witness :
  let before :=
    final ((initialize ;; refresh [Sample.first_line]) (page Sample.body)) in
  keydown (final (setLines [Sample.first_line; Sample.added_line] before))
    = [1%nat] /\
  keydown (final (setLines [Sample.added_line; Sample.first_line] before))
    = [1%nat; 3%nat].
Proof.
  intros before. split.
  - apply (refresh_subscriptions [Sample.first_line; Sample.added_line]
                                 before 1 Sample.first_line);
      reflexivity.
  - apply (refresh_subscriptions [Sample.added_line; Sample.first_line]
                                 before 1 Sample.added_line);
      reflexivity.
Defined.
